(** * smurfify.py: a shallow embedding and its properties

    The development follows the layout of [smurfify.py]:
    - Python strings and the [str] / [re] primitives the script calls,
    - the random source behind [random.random()],
    - the word lists and [CHAOS_CHANCE],
    - [apply_inflection], [smurfify_base], [smurfify_word], [is_smurfed],
      [smurfify_line],
    - the properties of these functions. *)

From Stdlib Require Import List Bool Arith NArith ZArith QArith Lia.
From Stdlib Require Import String Ascii.
Import ListNotations.

Close Scope Q_scope.
Open Scope bool_scope.
Open Scope list_scope.
Open Scope nat_scope.

(** ** Python strings

    A Python [str] is a sequence of Unicode code points.  The predicates and
    case mappings of [str] are written out for the ASCII range; above it they
    are read from the interpreter's Unicode database, which is no part of the
    script and is a parameter of the model. *)

Definition char := N.
Definition str := list char.

(** A string literal of the script. *)
Definition lit (s : string) : str := List.map N_of_ascii (list_ascii_of_string s).

Fixpoint str_eqb (a b : str) : bool :=
  match a, b with
  | [], [] => true
  | x :: a', y :: b' => N.eqb x y && str_eqb a' b'
  | _, _ => false
  end.

(** [x in S] for a set literal [S]: only membership is ever used. *)
Definition mem (x : str) (S : list str) : bool := existsb (str_eqb x) S.

(** [s.startswith(p)] and [s.endswith(p)]. *)
Fixpoint startswith (s p : str) : bool :=
  match p, s with
  | [], _ => true
  | y :: p', x :: s' => N.eqb x y && startswith s' p'
  | _ :: _, [] => false
  end.

Definition endswith (s p : str) : bool := startswith (rev s) (rev p).

(** [sep.join(parts)]. *)
Fixpoint join (sep : str) (parts : list str) : str :=
  match parts with
  | [] => []
  | [p] => p
  | p :: ps => p ++ sep ++ join sep ps
  end.

(** [s.split(sep)] for a one-character separator: empty pieces are kept. *)
Fixpoint split_on (sep : char) (s : str) : list str :=
  match s with
  | [] => [[]]
  | c :: tl =>
      if N.eqb c sep then [] :: split_on sep tl
      else match split_on sep tl with
           | p :: ps => (c :: p) :: ps
           | [] => [[c]]
           end
  end.

(** The longest prefix whose characters satisfy [p], and the rest. *)
Fixpoint span (p : char -> bool) (s : str) : str * str :=
  match s with
  | [] => ([], [])
  | c :: tl =>
      if p c then let (a, b) := span p tl in (c :: a, b) else ([], s)
  end.

(** *** The ASCII range *)

Definition is_ascii (c : char) : bool := (c <? 128)%N.
Definition between (lo hi c : N) : bool := ((lo <=? c) && (c <=? hi))%N.

Definition ascii_isupper (c : char) : bool := between 65 90 c.
Definition ascii_islower (c : char) : bool := between 97 122 c.
Definition ascii_isalpha (c : char) : bool := ascii_isupper c || ascii_islower c.
Definition ascii_isdigit (c : char) : bool := between 48 57 c.
Definition ascii_isspace (c : char) : bool :=
  between 9 13 c || between 28 31 c || N.eqb c 32.
Definition ascii_lower (c : char) : char := if ascii_isupper c then (c + 32)%N else c.
Definition ascii_upper (c : char) : char := if ascii_islower c then (c - 32)%N else c.

Definition HYPHEN : char := 45%N.
Definition NEWLINE : char := 10%N.
Definition UNDERSCORE : char := 95%N.

(** *** The Unicode database, for code points from 128 on

    [uc_lower whole i c] is the lower-case mapping of the code point [c] found
    at index [i] of [whole]; the mapping of a capital sigma depends on its
    neighbours, so it receives the string.  A mapping may produce several code
    points.  [uc_isnumeric] stands for decimal, digit or numeric. *)

Record Unicode := {
  uc_isalpha : char -> bool;
  uc_isnumeric : char -> bool;
  uc_isspace : char -> bool;
  uc_isupper : char -> bool;
  uc_islower : char -> bool;
  uc_istitle : char -> bool;
  uc_lower : str -> nat -> char -> str;
  uc_upper : char -> str;
  uc_title : char -> str
}.

Section Strings.

Variable U : Unicode.

Definition isalpha_cp (c : char) : bool :=
  if is_ascii c then ascii_isalpha c else uc_isalpha U c.
Definition isnumeric_cp (c : char) : bool :=
  if is_ascii c then ascii_isdigit c else uc_isnumeric U c.
Definition isspace_cp (c : char) : bool :=
  if is_ascii c then ascii_isspace c else uc_isspace U c.
Definition isupper_cp (c : char) : bool :=
  if is_ascii c then ascii_isupper c else uc_isupper U c.
Definition islower_cp (c : char) : bool :=
  if is_ascii c then ascii_islower c else uc_islower U c.
Definition istitle_cp (c : char) : bool :=
  if is_ascii c then false else uc_istitle U c.

Definition lower_cp (whole : str) (i : nat) (c : char) : str :=
  if is_ascii c then [ascii_lower c] else uc_lower U whole i c.
Definition upper_cp (c : char) : str :=
  if is_ascii c then [ascii_upper c] else uc_upper U c.
Definition title_cp (c : char) : str :=
  if is_ascii c then [ascii_upper c] else uc_title U c.

(** [s.lower()]: every code point is mapped, in the context of the whole
    string. *)
Fixpoint lower_from (whole : str) (i : nat) (rest : str) : str :=
  match rest with
  | [] => []
  | c :: tl => lower_cp whole i c ++ lower_from whole (S i) tl
  end.

Definition lower (s : str) : str := lower_from s 0 s.

(** [s.upper()]. *)
Definition upper (s : str) : str := flat_map upper_cp s.

(** [s.capitalize()]: the first code point in title case, the others in
    lower case. *)
Definition capitalize (s : str) : str :=
  match s with
  | [] => []
  | c :: tl => title_cp c ++ lower_from s 1 tl
  end.

(** [s.isalpha()]: non-empty and every code point alphabetic. *)
Definition isalpha (s : str) : bool :=
  match s with
  | [] => false
  | _ => forallb isalpha_cp s
  end.

(** [s.isupper()]: no lower-case or title-case code point and at least one
    upper-case one. *)
Fixpoint isupper_loop (cased : bool) (s : str) : bool :=
  match s with
  | [] => cased
  | c :: tl =>
      if islower_cp c || istitle_cp c then false
      else isupper_loop (cased || isupper_cp c) tl
  end.

Definition isupper (s : str) : bool :=
  match s with
  | [c] => isupper_cp c
  | _ => isupper_loop false s
  end.

(** [s.istitle()]: upper-case and title-case code points only follow uncased
    ones, lower-case code points only follow cased ones, and there is at least
    one cased code point. *)
Fixpoint istitle_loop (cased previous_is_cased : bool) (s : str) : bool :=
  match s with
  | [] => cased
  | c :: tl =>
      if isupper_cp c || istitle_cp c then
        if previous_is_cased then false else istitle_loop true true tl
      else if islower_cp c then
        if previous_is_cased then istitle_loop true true tl else false
      else istitle_loop cased false tl
  end.

Definition istitle (s : str) : bool :=
  match s with
  | [c] => istitle_cp c || isupper_cp c
  | _ => istitle_loop false false s
  end.

(** [s.split()]: maximal runs of non-whitespace code points. *)
Fixpoint split_go (tok : str) (s : str) : list str :=
  match s with
  | [] => match tok with [] => [] | _ => [tok] end
  | c :: tl =>
      if isspace_cp c then
        match tok with
        | [] => split_go [] tl
        | _ => tok :: split_go [] tl
        end
      else split_go (tok ++ [c]) tl
  end.

Definition split (s : str) : list str := split_go [] s.

(** *** The two regular expressions of the script *)

(** [\w]: alphanumeric or underscore. *)
Definition is_word (c : char) : bool :=
  isalpha_cp c || isnumeric_cp c || N.eqb c UNDERSCORE.

(** [[\w\-]]. *)
Definition is_word_or_hyphen (c : char) : bool := is_word c || N.eqb c HYPHEN.

(** The punctuation class of the pattern: full stop, comma, exclamation mark,
    question mark, semicolon, colon, apostrophe, double quote, backtick. *)
Definition PUNCT : list char := [46; 44; 33; 63; 59; 58; 39; 34; 96]%N.
Definition is_punct (c : char) : bool := existsb (N.eqb c) PUNCT.

(** [re.match] of the script's token pattern (start, one or more of [[\w\-]],
    any number of punctuation characters, [$]), returning the two groups.
    Both groups are greedy and their character classes are disjoint, so the
    first group is the longest run of word characters and hyphens and the
    second the longest run of punctuation after it.  [$] matches at the end of
    the string and also just before a newline that ends the string. *)
Definition re_match (word : str) : option (str * str) :=
  let (base, rest) := span is_word_or_hyphen word in
  let (punct, tail) := span is_punct rest in
  match base with
  | [] => None
  | _ =>
      match tail with
      | [] => Some (base, punct)
      | [c] => if N.eqb c NEWLINE then Some (base, punct) else None
      | _ => None
      end
  end.

(** [re.sub] deleting every character outside [[\w\-]]. *)
Definition re_sub (s : str) : str := filter is_word_or_hyphen s.

End Strings.

(** ** Effects: the random source and exceptions

    [random.random()] returns a float of the interval from 0 (included) to 1
    (excluded); a float is a rational and the comparison of two floats is the
    comparison of these rationals.  The source is the sequence of the values it
    will return, and the state threaded through the script is the number of
    values already drawn.

    Indexing a list past its end raises [IndexError].  [FuelExhausted] is no
    Python exception: it marks a run of the model that reached the bound put on
    the iterations of the [while] loop. *)

Definition Qltb (x y : Q) : bool := (Qnum x * QDen y <? Qnum y * QDen x)%Z.

Inductive exn : Type := IndexError | FuelExhausted.

Inductive outcome (A : Type) : Type :=
| Returns (a : A) (n : nat)
| Raises (e : exn).

Arguments Returns {A} a n.
Arguments Raises {A} e.

Definition M (A : Type) : Type := nat -> outcome A.

Definition ret {A : Type} (a : A) : M A := fun n => Returns a n.

Definition raise {A : Type} (e : exn) : M A := fun _ => Raises e.

Definition bind {A B : Type} (m : M A) (k : A -> M B) : M B :=
  fun n => match m n with
           | Returns a n' => k a n'
           | Raises e => Raises e
           end.

Notation "x <- m ;; k" := (bind m (fun x => k))
  (at level 61, m at next level, right associativity).

(** [a and b] on conditions: [b] is evaluated only when [a] holds. *)
Definition andM (a b : M bool) : M bool := x <- a ;; if x then b else ret false.

Notation "a '&&&' b" := (andM a b) (at level 40, left associativity).

(** A list comprehension whose body draws: the elements are visited from left
    to right. *)
Fixpoint mapM {A B : Type} (f : A -> M B) (l : list A) : M (list B) :=
  match l with
  | [] => ret []
  | a :: l' => b <- f a ;; bs <- mapM f l' ;; ret (b :: bs)
  end.

(** [l[i]] for a list [l] and an index [i] that is not negative. *)
Definition index {A : Type} (l : list A) (i : nat) : M A :=
  match nth_error l i with
  | Some a => ret a
  | None => raise IndexError
  end.

(** The value a computation returns when the source is fresh. *)
Definition run {A : Type} (m : M A) : option A :=
  match m O with
  | Returns a _ => Some a
  | Raises _ => None
  end.

(** ** Configuration *)

(** [CHAOS_CHANCE = 0.05]: the double nearest to one twentieth. *)
Definition CHAOS_CHANCE : Q := (3602879701896397 # 72057594037927936)%Q.

Definition words_of (l : list string) : list str := List.map lit l.

Definition VERBS : list str := words_of [
  "fix"; "use"; "try"; "run"; "make"; "build"; "break"; "work"; "get"; "open"; "close";
  "start"; "stop"; "install"; "update"; "write"; "read"; "create"; "test"; "save";
  "remove"; "delete"; "move"; "copy"; "push"; "pull"; "deploy"; "debug"; "submit";
  "sync"; "compile"; "reboot"; "configure"; "clone"; "publish";
  "see"; "take"; "give"; "find"; "call"; "help"; "ask"; "know"; "need"; "show";
  "leave"; "come"; "look"; "tell"; "want"; "put"; "bring"; "play"; "speak"; "learn";
  "live"; "smile"; "believe"; "follow"; "carry"; "become"; "remember"; "love"; "hate";
  "eat"; "drink"; "sleep"; "walk"; "sit"; "stand";
  "entertain"; "sing"; "dance"; "dream"; "fight"; "shout"; "whisper"; "laugh";
  "cry"; "hope"; "plan"; "smurf"
]%string.

Definition NOUNS : list str := words_of [
  "tool"; "thing"; "plan"; "idea"; "bug"; "code"; "file"; "script"; "device"; "command";
  "folder"; "line"; "project"; "task"; "feature"; "issue"; "input"; "output"; "program";
  "proposal"; "workflow"; "pipeline"; "repo"; "package"; "module"; "service"; "container";
  "turtle"; "timeline"; "cloud"; "feedback"; "platform"; "windows"; "mac"; "linux";
  "time"; "day"; "night"; "man"; "woman"; "child"; "world"; "life";
  "hand"; "eye"; "place"; "work"; "year"; "friend"; "family"; "house";
  "name"; "school"; "story"; "water"; "fire"; "earth"; "air";
  "city"; "village"; "river"; "road"; "table"; "book"; "letter";
  "voice"; "language"; "song"; "truth"; "order"; "union"; "justice"
]%string.

Definition ADJECTIVES : list str := words_of [
  "good"; "bad"; "broken"; "awesome"; "clever"; "smart"; "dumb"; "quick"; "slow";
  "ugly"; "useful"; "confusing"; "weird"; "helpful"; "nice"; "simple"; "hard"; "cool";
  "agile"; "responsive";
  "big"; "small"; "long"; "short"; "happy"; "sad"; "easy"; "new"; "old"; "young";
  "strong"; "weak"; "bright"; "dark"; "loud"; "quiet"; "fast"; "slow";
  "simple"; "complex"; "early"; "late"; "warm"; "cold"
]%string.

Definition EXCLAIMS : list str := words_of [
  "wow"; "yay"; "oops"; "hey"; "yeah"; "woo"; "whoa"; "huh"; "ugh"; "nope"; "nice";
  "heck"; "hell"; "damn"; "darn"; "crap"; "woot"
]%string.

Definition CONNECTORS : list str := words_of ["and"; ","]%string.

(** ** Core logic *)

Section Core.

Variable U : Unicode.

(** The value of the module constant [CHAOS_CHANCE] read by [smurfify_base]. *)
Variable chaos : Q.

(** The values [random.random()] returns, in the order of the calls. *)
Variable draws : nat -> Q.

Definition random : M Q := fun n => Returns (draws n) (S n).

Definition apply_inflection (replacement original : str) : str :=
  let lower := lower U original in
  let replacement :=
    if endswith lower (lit "ing") then replacement ++ lit "ing"
    else if endswith lower (lit "ed") then replacement ++ lit "ed"
    else if endswith lower (lit "s") && negb (endswith lower (lit "ss"))
    then replacement ++ lit "s"
    else replacement in
  if isupper U original then upper U replacement
  else if istitle U original then capitalize U replacement
  else replacement.

Definition smurfify_base (base : str) : M str :=
  let lower := lower U base in
  if mem lower VERBS || mem lower NOUNS then
    ret (apply_inflection (lit "smurf") base)
  else if mem lower ADJECTIVES then
    ret (apply_inflection (lit "smurfy") base)
  else if mem lower EXCLAIMS then
    ret (lit "Smurf!")
  else if isalpha U base then
    r <- random ;;
    if Qltb r chaos then ret (apply_inflection (lit "smurf") base)
    else ret base
  else ret base.

Definition smurfify_word (word : str) : M str :=
  match re_match U word with
  | None => ret word
  | Some (base, punct) =>
      smurfed_parts <- mapM smurfify_base (split_on HYPHEN base) ;;
      ret (join [HYPHEN] smurfed_parts ++ punct)
  end.

Definition is_smurfed (word : str) : bool :=
  startswith (lower U word) (lit "smurf").

(** The test of the first [if] of the loop body: the verb-some-noun window. *)
Definition idiom_window (words : list str) (i : nat) : M bool :=
  ret (i + 2 <? List.length words)
  &&& (w <- index words (i + 1) ;; ret (str_eqb (lower U w) (lit "some")))
  &&& (w <- index words i ;; ret (mem (re_sub U (lower U w)) VERBS))
  &&& (w <- index words (i + 2) ;; ret (mem (re_sub U (lower U w)) NOUNS)).

(** The test of the second [if]: a connector between two words. *)
Definition connector_window (words : list str) (i : nat) : M bool :=
  ret (i + 2 <? List.length words)
  &&& (w <- index words (i + 1) ;; ret (mem (lower U w) CONNECTORS)).

(** The last two statements of the loop body. *)
Definition normal_word (words : list str) (i : nat) (result : list str)
  : M (nat * list str) :=
  w <- index words i ;;
  s <- smurfify_word w ;;
  ret (i + 1, result ++ [s]).

(** One iteration of the [while] loop, from the state [(i, result)]. *)
Definition loop_body (words : list str) (i : nat) (result : list str)
  : M (nat * list str) :=
  idiom <- idiom_window words i ;;
  if idiom then
    verb <- index words i ;;
    noun <- index words (i + 2) ;;
    r <- random ;;
    if Qltb r (1 # 2)%Q then
      v <- smurfify_word verb ;;
      ret (i + 3, result ++ [v; lit "some"; noun])
    else
      n <- smurfify_word noun ;;
      ret (i + 3, result ++ [verb; lit "some"; n])
  else
    connector <- connector_window words i ;;
    if connector then
      w1 <- index words i ;;
      w2 <- index words (i + 2) ;;
      s1 <- smurfify_word w1 ;;
      s2 <- smurfify_word w2 ;;
      if is_smurfed s1 && is_smurfed s2 then
        r <- random ;;
        if Qltb r (1 # 2)%Q then
          c <- index words (i + 1) ;;
          ret (i + 3, result ++ [s1; c; w2])
        else
          c <- index words (i + 1) ;;
          ret (i + 3, result ++ [w1; c; s2])
      else normal_word words i result
    else normal_word words i result.

(** [while i < len(words)], with a bound on the number of iterations. *)
Fixpoint while_loop (fuel : nat) (words : list str) (i : nat) (result : list str)
  : M (nat * list str) :=
  if i <? List.length words then
    match fuel with
    | O => raise FuelExhausted
    | S fuel' =>
        st <- loop_body words i result ;;
        while_loop fuel' words (fst st) (snd st)
    end
  else ret (i, result).

(** Every iteration advances [i], so [len(words)] iterations are enough. *)
Definition smurfify_line (line : str) : M str :=
  let words := split U line in
  st <- while_loop (List.length words) words 0 [] ;;
  ret (join (lit " ") (snd st)).

End Core.

(** The operation the script offers to its callers; [None] when it raises. *)
Definition processLine (U : Unicode) (draws : nat -> Q) (line : str) : option str :=
  run (smurfify_line U CHAOS_CHANCE draws line).

(** The word transformer alone, under the configured chaos chance. *)
Definition transform (U : Unicode) (draws : nat -> Q) (token : str) : option str :=
  run (smurfify_word U CHAOS_CHANCE draws token).

(** ** A small Unicode database

    The ASCII range is fixed by the model; this table adds a few code points
    above it (e with acute accent in both cases, the Kelvin sign whose
    lower-case form is the ASCII letter k, two spaces) and treats all the
    others as caseless symbols. *)

Definition sample_unicode : Unicode := {|
  uc_isalpha := fun c => existsb (N.eqb c) [201; 233; 8490]%N;
  uc_isnumeric := fun _ => false;
  uc_isspace := fun c => existsb (N.eqb c) [160; 12288]%N;
  uc_isupper := fun c => existsb (N.eqb c) [201; 8490]%N;
  uc_islower := fun c => N.eqb c 233;
  uc_istitle := fun _ => false;
  uc_lower := fun _ _ c =>
    if N.eqb c 201 then [233%N] else if N.eqb c 8490 then [107%N] else [c];
  uc_upper := fun c => if N.eqb c 233 then [201%N] else [c];
  uc_title := fun c => if N.eqb c 233 then [201%N] else [c]
|}.

(** A source that always returns the same value. *)
Definition constant_draws (q : Q) : nat -> Q := fun _ => q.

(** ** The loop body on a window of three words *)

(** What the loop body does when at least three words remain: the words at
    [i], [i + 1] and [i + 2] are [w1], [c] and [w2]. *)
Definition on_window (U : Unicode) (chaos : Q) (draws : nat -> Q) (i : nat) (result : list str) (w1 c w2 : str)
  : M (nat * list str) :=
  if str_eqb (lower U c) (lit "some")
     && mem (re_sub U (lower U w1)) VERBS
     && mem (re_sub U (lower U w2)) NOUNS
  then
    r <- random draws ;;
    if Qltb r (1 # 2)%Q then
      v <- smurfify_word U chaos draws w1 ;; ret (i + 3, result ++ [v; lit "some"; w2])
    else
      n <- smurfify_word U chaos draws w2 ;; ret (i + 3, result ++ [w1; lit "some"; n])
  else if mem (lower U c) CONNECTORS then
    s1 <- smurfify_word U chaos draws w1 ;;
    s2 <- smurfify_word U chaos draws w2 ;;
    if is_smurfed U s1 && is_smurfed U s2 then
      r <- random draws ;;
      if Qltb r (1 # 2)%Q then ret (i + 3, result ++ [s1; c; w2])
      else ret (i + 3, result ++ [w1; c; s2])
    else s <- smurfify_word U chaos draws w1 ;; ret (i + 1, result ++ [s])
  else s <- smurfify_word U chaos draws w1 ;; ret (i + 1, result ++ [s]).

(** ** The components as the specification words them *)

(** The inflector: the suffix that the lowercased original selects, in the
    order ing, ed, s (but not ss), none. *)
Definition spec_suffix (lowered : str) : str :=
  if endswith lowered (lit "ing") then lit "ing"
  else if endswith lowered (lit "ed") then lit "ed"
  else if endswith lowered (lit "s") && negb (endswith lowered (lit "ss"))
  then lit "s"
  else [].

(** The inflector: the casing of the original carried over to the result. *)
Definition spec_casing (U : Unicode) (original result : str) : str :=
  if isupper U original then upper U result
  else if istitle U original then capitalize U result
  else result.

Definition spec_inflect (U : Unicode) (stem original : str) : str :=
  spec_casing U original (stem ++ spec_suffix (lower U original)).

(** The lexicon: the category of a word, looked up in lower case. *)
Inductive category : Type := Verb | Noun | Adjective | Exclaim | Unclassified.

Definition classify (U : Unicode) (word : str) : category :=
  let w := lower U word in
  if mem w VERBS then Verb
  else if mem w NOUNS then Noun
  else if mem w ADJECTIVES then Adjective
  else if mem w EXCLAIMS then Exclaim
  else Unclassified.

(** The substitution of a sub-word, by category. *)
Definition spec_substitute (U : Unicode) (chaos : Q) (draws : nat -> Q)
           (word : str) : M str :=
  match classify U word with
  | Verb | Noun => ret (spec_inflect U (lit "smurf") word)
  | Adjective => ret (spec_inflect U (lit "smurfy") word)
  | Exclaim => ret (lit "Smurf!")
  | Unclassified =>
      if isalpha U word then
        r <- random draws ;;
        if Qltb r chaos then ret (spec_inflect U (lit "smurf") word)
        else ret word
      else ret word
  end.

(** ** Tokens that pass through

    A token that does not have the shape of the pattern, or none of whose
    hyphen-separated sub-words is alphabetic. *)
Definition passes_through (U : Unicode) (token : str) : bool :=
  match re_match U token with
  | None => true
  | Some (base, _) =>
      forallb (fun part => negb (isalpha U part)) (split_on HYPHEN base)
  end.

(** ** A fact of the Unicode database

    A code point outside ASCII whose lower-case mapping is made of ASCII code
    points is alphabetic (the Kelvin sign, with the letter k, is the only such
    code point). *)
Definition lower_keeps_letters (U : Unicode) : Prop :=
  forall (whole : str) (i : nat) (c : char),
    is_ascii c = false ->
    forallb is_ascii (uc_lower U whole i c) = true ->
    uc_isalpha U c = true.

(** What the line transformer owes to a token: when the token passes through
    (and the Unicode database keeps letters), the word put out for it is the
    token itself. *)
Definition kept (U : Unicode) (token out : str) : Prop :=
  lower_keeps_letters U -> passes_through U token = true -> out = token.

(** The words of the four lists. *)
Definition LEXICON : list str := VERBS ++ NOUNS ++ ADJECTIVES ++ EXCLAIMS.

(** ** The callers in [main]

    [main] reads its input (a file, the arguments, the standard input) and
    hands it to [smurfify_line]; what it computes on the text is below. *)

(** [s.rstrip()]: the string without the whitespace that ends it. *)
Fixpoint rstrip (U : Unicode) (s : str) : str :=
  match s with
  | [] => []
  | c :: tl =>
      match rstrip U tl with
      | [] => if isspace_cp U c then [] else [c]
      | r => c :: r
      end
  end.

(** [for line in f: print(smurfify_line(line.rstrip()))]: the lines printed,
    in order; the random source goes on from one line to the next. *)
Definition smurfify_lines (U : Unicode) (chaos : Q) (draws : nat -> Q)
           (lines : list str) : M (list str) :=
  mapM (fun line => smurfify_line U chaos draws (rstrip U line)) lines.

(** [smurfify_line(' '.join(args.text))]. *)
Definition smurfify_args (U : Unicode) (chaos : Q) (draws : nat -> Q)
           (text : list str) : M str :=
  smurfify_line U chaos draws (join (lit " ") text).

(** ** Vocabulary of the further properties *)

(** The forms the two stems can take: a suffix among none, ing, ed, s, in
    lower case, upper case or capitalized. *)
Definition SMURF_FORMS : list str := words_of [
  "smurf"; "smurfing"; "smurfed"; "smurfs";
  "SMURF"; "SMURFING"; "SMURFED"; "SMURFS";
  "Smurf"; "Smurfing"; "Smurfed"; "Smurfs"
]%string.

Definition SMURFY_FORMS : list str := words_of [
  "smurfy"; "smurfying"; "smurfyed"; "smurfys";
  "SMURFY"; "SMURFYING"; "SMURFYED"; "SMURFYS";
  "Smurfy"; "Smurfying"; "Smurfyed"; "Smurfys"
]%string.

(** Everything [smurfify_base] can put in the place of a sub-word. *)
Definition SUBSTITUTES : list str := SMURF_FORMS ++ SMURFY_FORMS ++ [lit "Smurf!"].

(** A sub-word for which [smurfify_base] calls [random.random()]. *)
Definition draws_one (U : Unicode) (part : str) : bool :=
  match classify U part with
  | Unclassified => isalpha U part
  | _ => false
  end.

(** A word as [split] returns them: not empty, no whitespace. *)
Definition is_token (U : Unicode) (w : str) : Prop :=
  w <> [] /\ forallb (fun c => negb (isspace_cp U c)) w = true.

(** A token that opens no window when it is the middle word: neither some
    nor a connector. *)
Definition plain (U : Unicode) (token : str) : bool :=
  negb (str_eqb (lower U token) (lit "some"))
  && negb (mem (lower U token) CONNECTORS).

(** What the line transformer may put out for a token: the token, a transform
    of the token, or some when the token reads some in lower case. *)
Definition emitted_for (U : Unicode) (chaos : Q) (draws : nat -> Q)
           (token out : str) : Prop :=
  out = token
  \/ (exists n n' : nat, smurfify_word U chaos draws token n = Returns out n')
  \/ (lower U token = lit "some" /\ out = lit "some").

(** * Properties *)

(** ** Strings and sets *)

Lemma str_eqb_eq (a b : str) : str_eqb a b = true <-> a = b.
Proof.
  revert b; induction a as [|x a IH]; intros [|y b]; simpl; split; intro H;
    try reflexivity; try discriminate.
  - apply andb_true_iff in H as [Hx Hab].
    apply N.eqb_eq in Hx. apply IH in Hab. now subst.
  - injection H as -> ->. rewrite N.eqb_refl. now apply IH.
Qed.

Lemma mem_In (x : str) (S : list str) : mem x S = true <-> In x S.
Proof.
  unfold mem. rewrite existsb_exists. split.
  - intros [y [Hy Heq]]. apply str_eqb_eq in Heq. now subst.
  - intro H. exists x. split; [assumption | now apply str_eqb_eq].
Qed.

Lemma Qltb_lt (x y : Q) : Qltb x y = true <-> (x < y)%Q.
Proof. unfold Qltb, Qlt. apply Z.ltb_lt. Qed.

Lemma Qltb_ge (x y : Q) : Qltb x y = false <-> (y <= x)%Q.
Proof. unfold Qltb, Qle. apply Z.ltb_ge. Qed.

(** ** The idiom window on [fix some bug] *)

Lemma fix_some_bug (U : Unicode) (draws : nat -> Q) :
  processLine U draws (lit "fix some bug") =
  Some (if Qltb (draws 0) (1 # 2)%Q then lit "smurf some bug" else lit "fix some smurf").
Proof.
  unfold processLine, run, smurfify_line.
  cbv -[Qltb].
  destruct (Qltb (draws 0) (1 # 2)%Q); reflexivity.
Qed.

(** ** The loop body, one window at a time *)

Section LoopBody.

Variable U : Unicode.
Variable chaos : Q.
Variable draws : nat -> Q.

Lemma index_app {A : Type} (pre post : list A) (k : nat) :
  index (pre ++ post) (List.length pre + k) =
  match nth_error post k with
  | Some a => ret a
  | None => raise IndexError
  end.
Proof.
  unfold index. rewrite nth_error_app2 by lia.
  replace (List.length pre + k - List.length pre) with k by lia.
  reflexivity.
Qed.

Lemma index_here {A : Type} (pre post : list A) :
  index (pre ++ post) (List.length pre) =
  match nth_error post 0 with
  | Some a => ret a
  | None => raise IndexError
  end.
Proof. rewrite <- (Nat.add_0_r (List.length pre)) at 1. apply index_app. Qed.

Lemma loop_body_window (pre post : list str) (w1 c w2 : str)
      (result : list str) (n : nat) :
  loop_body U chaos draws (pre ++ w1 :: c :: w2 :: post) (List.length pre) result n =
  on_window U chaos draws (List.length pre) result w1 c w2 n.
Proof.
  assert (Hlt : (List.length pre + 2 <?
                 List.length (pre ++ w1 :: c :: w2 :: post)) = true).
  { apply Nat.ltb_lt. rewrite length_app. simpl. lia. }
  unfold loop_body, on_window, idiom_window, connector_window, normal_word.
  rewrite Hlt, !(index_app pre), !(index_here pre).
  cbn [nth_error]. unfold andM, bind, ret, random. cbv beta iota.
  destruct (str_eqb (lower U c) (lit "some"));
    destruct (mem (re_sub U (lower U w1)) VERBS);
    destruct (mem (re_sub U (lower U w2)) NOUNS);
    cbv beta iota; cbn [andb];
    try (destruct (Qltb (draws n) (1 # 2)%Q); reflexivity);
    (destruct (mem (lower U c) CONNECTORS); [|reflexivity]);
    (destruct (smurfify_word U chaos draws w1 n) as [s1 n1|]; [|reflexivity]);
    (destruct (smurfify_word U chaos draws w2 n1) as [s2 n2|]; [|reflexivity]);
    (destruct (is_smurfed U s1 && is_smurfed U s2); [|reflexivity]);
    destruct (Qltb (draws n2) (1 # 2)%Q); reflexivity.
Qed.

(** With fewer than three words left, neither window is looked at. *)
Lemma loop_body_short (pre rest : list str) (w : str)
      (result : list str) (n : nat) :
  List.length rest < 2 ->
  loop_body U chaos draws (pre ++ w :: rest) (List.length pre) result n =
  (s <- smurfify_word U chaos draws w ;; ret (List.length pre + 1, result ++ [s])) n.
Proof.
  intro Hshort.
  assert (Hge : (List.length pre + 2 <? List.length (pre ++ w :: rest)) = false).
  { apply Nat.ltb_ge. rewrite length_app. simpl. lia. }
  unfold loop_body, idiom_window, connector_window, normal_word.
  rewrite Hge, (index_here pre). reflexivity.
Qed.

End LoopBody.

(** ** Splitting and joining *)

Lemma split_on_nonempty (sep : char) (s : str) : split_on sep s <> [].
Proof.
  destruct s as [|c tl]; simpl; [discriminate|].
  destruct (N.eqb c sep); [discriminate|].
  destruct (split_on sep tl); discriminate.
Qed.

Lemma join_cons (sep p : str) (ps : list str) :
  ps <> [] -> join sep (p :: ps) = p ++ sep ++ join sep ps.
Proof. destruct ps; [congruence | reflexivity]. Qed.

(** ['-'.join(s.split('-'))] is [s]. *)
Lemma join_split_on (sep : char) (s : str) : join [sep] (split_on sep s) = s.
Proof.
  induction s as [|c tl IH]; [reflexivity|].
  simpl split_on. destruct (N.eqb c sep) eqn:E.
  - apply N.eqb_eq in E. subst c.
    rewrite join_cons by apply split_on_nonempty. simpl. now rewrite IH.
  - pose proof (split_on_nonempty sep tl) as Hne.
    destruct (split_on sep tl) as [|p ps]; [congruence|].
    destruct ps as [|q qs]; simpl in *; now rewrite <- IH.
Qed.

(** A string without the separator is a single piece. *)
Lemma split_on_absent (sep : char) (s : str) :
  forallb (fun c => negb (N.eqb c sep)) s = true -> split_on sep s = [s].
Proof.
  induction s as [|c tl IH]; simpl; [reflexivity|].
  intro H. apply andb_true_iff in H as [Hc Htl].
  apply negb_true_iff in Hc. rewrite Hc, (IH Htl). reflexivity.
Qed.

Lemma span_spec (p : char -> bool) (s : str) :
  fst (span p s) ++ snd (span p s) = s
  /\ forallb p (fst (span p s)) = true
  /\ match snd (span p s) with [] => True | c :: _ => p c = false end.
Proof.
  induction s as [|c tl IH]; simpl; [auto|].
  destruct (p c) eqn:E.
  - destruct (span p tl) as [a b]. simpl in *.
    destruct IH as [H1 [H2 H3]]. rewrite H1, E, H2. auto.
  - simpl. auto.
Qed.

Lemma span_all (p : char -> bool) (s : str) :
  forallb p s = true -> span p s = (s, []).
Proof.
  induction s as [|c tl IH]; simpl; [reflexivity|].
  intro H. apply andb_true_iff in H as [Hc Htl].
  now rewrite Hc, (IH Htl).
Qed.

Lemma span_app (p : char -> bool) (a b : str) :
  forallb p a = true ->
  match b with [] => True | c :: _ => p c = false end ->
  span p (a ++ b) = (a, b).
Proof.
  intros Ha Hb. induction a as [|x a IH]; simpl.
  - destruct b as [|c b]; [reflexivity|]. simpl. now rewrite Hb.
  - simpl in Ha. apply andb_true_iff in Ha as [Hx Ha].
    now rewrite Hx, (IH Ha).
Qed.

Section Tokens.

Variable U : Unicode.

(** The shape of a token the word transformer works on: [base] is a non-empty
    run of word characters and hyphens, [punct] a run of punctuation, and the
    token is their concatenation, up to a newline at its very end. *)
Lemma re_match_Some (word base punct : str) :
  re_match U word = Some (base, punct) ->
  (word = base ++ punct \/ word = base ++ punct ++ [NEWLINE])
  /\ base <> []
  /\ forallb (is_word_or_hyphen U) base = true
  /\ forallb is_punct punct = true.
Proof.
  unfold re_match.
  pose proof (span_spec (is_word_or_hyphen U) word) as [Hw [Hb _]].
  destruct (span (is_word_or_hyphen U) word) as [b rest]. simpl in Hw, Hb.
  pose proof (span_spec is_punct rest) as [Hr [Hp _]].
  destruct (span is_punct rest) as [p tail]. simpl in Hr, Hp.
  destruct b as [|b0 b']; [discriminate|].
  destruct tail as [|c [|d tail']].
  - intro H. injection H as <- <-.
    rewrite app_nil_r in Hr. subst rest.
    repeat split; auto. discriminate.
  - destruct (N.eqb c NEWLINE) eqn:E; [|discriminate].
    apply N.eqb_eq in E. subst c.
    intro H. injection H as <- <-. subst rest.
    repeat split; auto. discriminate.
  - discriminate.
Qed.

(** A token that is one run of word characters and hyphens matches, with no
    punctuation. *)
Lemma re_match_word (word : str) :
  word <> [] -> forallb (is_word_or_hyphen U) word = true ->
  re_match U word = Some (word, []).
Proof.
  intros Hne Hall. unfold re_match. rewrite (span_all _ _ Hall). simpl.
  destruct word; [congruence | reflexivity].
Qed.

(** No punctuation character is a word character or a hyphen. *)
Lemma punct_not_word (c : char) :
  is_punct c = true -> is_word_or_hyphen U c = false.
Proof.
  unfold is_punct, PUNCT. simpl. intro H.
  repeat (apply orb_true_iff in H as [H|H];
          [apply N.eqb_eq in H; subst c; reflexivity|]).
  discriminate H.
Qed.

(** Conversely, every string of the shape is matched, and with these very
    groups: the pattern splits a token in one way only. *)
Lemma re_match_complete (word base punct : str) :
  base <> [] ->
  forallb (is_word_or_hyphen U) base = true ->
  forallb is_punct punct = true ->
  word = base ++ punct \/ word = base ++ punct ++ [NEWLINE] ->
  re_match U word = Some (base, punct).
Proof.
  intros Hne Hb Hp Hword. unfold re_match.
  assert (Hhead : forall tail : str,
             match tail with [] => True | c :: _ => is_word_or_hyphen U c = false end ->
             match punct ++ tail with
             | [] => True
             | c :: _ => is_word_or_hyphen U c = false
             end).
  { intros tail Ht. destruct punct as [|x punct']; [exact Ht|].
    simpl in Hp. apply andb_true_iff in Hp as [Hx _].
    now apply punct_not_word. }
  destruct Hword as [->| ->].
  - rewrite <- (app_nil_r punct) at 1.
    rewrite (span_app _ base (punct ++ []) Hb (Hhead [] I)).
    rewrite (span_app is_punct punct [] Hp I).
    destruct base; [congruence | reflexivity].
  - rewrite (span_app _ base (punct ++ [NEWLINE]) Hb (Hhead [NEWLINE] eq_refl)).
    rewrite (span_app is_punct punct [NEWLINE] Hp eq_refl).
    destruct base; [congruence | reflexivity].
Qed.

(** The pieces [split] returns are not empty and hold no whitespace. *)
Lemma split_go_tokens (s tok t : str) :
  forallb (fun c => negb (isspace_cp U c)) tok = true ->
  In t (split_go U tok s) ->
  t <> [] /\ forallb (fun c => negb (isspace_cp U c)) t = true.
Proof.
  revert tok. induction s as [|c tl IH]; intros tok Htok Hin; simpl in Hin.
  - destruct tok; [contradiction|].
    destruct Hin as [<-|[]]. split; [discriminate | assumption].
  - destruct (isspace_cp U c) eqn:E.
    + destruct tok as [|x tok'].
      * now apply (IH []).
      * destruct Hin as [<-|Hin]; [split; [discriminate | assumption]|].
        now apply (IH []).
    + apply (IH (tok ++ [c])); [|assumption].
      rewrite forallb_app, Htok. simpl. now rewrite E.
Qed.

Lemma split_tokens (line t : str) :
  In t (split U line) ->
  t <> [] /\ forallb (fun c => negb (isspace_cp U c)) t = true.
Proof. apply split_go_tokens. reflexivity. Qed.

Lemma token_no_newline (t base punct : str) :
  forallb (fun c => negb (isspace_cp U c)) t = true ->
  t <> base ++ punct ++ [NEWLINE].
Proof.
  intros Hall ->. rewrite !forallb_app in Hall.
  apply andb_true_iff in Hall as [_ Hall].
  apply andb_true_iff in Hall as [_ Hall].
  discriminate Hall.
Qed.

(** On a token of a line the two groups of the pattern rebuild the token. *)
Lemma re_match_token (line t base punct : str) :
  In t (split U line) -> re_match U t = Some (base, punct) ->
  base ++ punct = t.
Proof.
  intros Hin Hm. apply split_tokens in Hin as [_ Hws].
  apply re_match_Some in Hm as [[H|H] _]; [now symmetry|].
  now apply token_no_newline in H.
Qed.

End Tokens.

(** ** The inflector *)

Lemma apply_inflection_spec (U : Unicode) (stem original : str) :
  apply_inflection U stem original = spec_inflect U stem original.
Proof.
  unfold apply_inflection, spec_inflect, spec_casing, spec_suffix.
  destruct (endswith (lower U original) (lit "ing")); [reflexivity|].
  destruct (endswith (lower U original) (lit "ed")); [reflexivity|].
  destruct (endswith (lower U original) (lit "s")
            && negb (endswith (lower U original) (lit "ss")));
    [reflexivity|].
  now rewrite app_nil_r.
Qed.

(** C3. [apply_inflection] lowercases the original, appends to the stem the
    one suffix selected in the order ing, ed, s-but-not-ss, none, and then
    carries the casing of the original over: upper case when the original is
    upper case, capitalized when it is title case, unchanged otherwise.  It
    maps (smurf, Running) to Smurfing, (smurf, FIXED) to SMURFED and
    (smurfy, bugs) to smurfys. *)
Theorem inflection_correct (U : Unicode) :
  (forall stem original : str,
      apply_inflection U stem original =
      spec_casing U original (stem ++ spec_suffix (lower U original)))
  /\ (forall lowered : str,
         In (spec_suffix lowered) [lit "ing"; lit "ed"; lit "s"; []])
  /\ apply_inflection U (lit "smurf") (lit "Running") = lit "Smurfing"
  /\ apply_inflection U (lit "smurf") (lit "FIXED") = lit "SMURFED"
  /\ apply_inflection U (lit "smurfy") (lit "bugs") = lit "smurfys".
Proof.
  split; [|split; [|repeat split]].
  - intros. apply apply_inflection_spec.
  - intro lowered. unfold spec_suffix.
    destruct (endswith lowered (lit "ing")); [now left|].
    destruct (endswith lowered (lit "ed")); [now right; left|].
    destruct (endswith lowered (lit "s") && negb (endswith lowered (lit "ss")));
      simpl; auto.
Qed.

(** ** The lexicon and the substitution of a sub-word *)

Lemma smurfify_base_spec (U : Unicode) (chaos : Q) (draws : nat -> Q)
      (base : str) :
  smurfify_base U chaos draws base = spec_substitute U chaos draws base.
Proof.
  unfold smurfify_base, spec_substitute, classify.
  rewrite !apply_inflection_spec.
  destruct (mem (lower U base) VERBS); [reflexivity|].
  destruct (mem (lower U base) NOUNS); [reflexivity|].
  destruct (mem (lower U base) ADJECTIVES); [reflexivity|].
  destruct (mem (lower U base) EXCLAIMS); reflexivity.
Qed.

(** The substitute of a sub-word, category by category. *)
Lemma smurfify_base_by_category (U : Unicode) (chaos : Q) (draws : nat -> Q)
      (base : str) (n : nat) :
  smurfify_base U chaos draws base n =
  match classify U base with
  | Verb | Noun => Returns (apply_inflection U (lit "smurf") base) n
  | Adjective => Returns (apply_inflection U (lit "smurfy") base) n
  | Exclaim => Returns (lit "Smurf!") n
  | Unclassified =>
      if isalpha U base then
        if Qltb (draws n) chaos
        then Returns (apply_inflection U (lit "smurf") base) (S n)
        else Returns base (S n)
      else Returns base n
  end.
Proof.
  rewrite smurfify_base_spec.
  unfold spec_substitute. rewrite <- !apply_inflection_spec.
  destruct (classify U base); try reflexivity.
  destruct (isalpha U base); [|reflexivity].
  unfold bind, random. destruct (Qltb (draws n) chaos); reflexivity.
Qed.

Lemma transform_fixing (U : Unicode) (draws : nat -> Q) :
  transform U draws (lit "fixing") =
  Some (if Qltb (draws 0) CHAOS_CHANCE then lit "smurfing" else lit "fixing").
Proof.
  unfold transform, run. cbv -[Qltb CHAOS_CHANCE].
  destruct (Qltb (draws 0) CHAOS_CHANCE); reflexivity.
Qed.

(** C4, as the claim states it, fails: fixing is in no word list, so the word
    transformer leaves it alone unless the chaos draw falls below the chaos
    chance. *)
Lemma transform_fixing_unchanged :
  transform sample_unicode (constant_draws (3 # 4)%Q) (lit "fixing")
  <> Some (lit "smurfing").
Proof. rewrite transform_fixing. vm_compute. discriminate. Qed.

(** C4, amended.  The category of a base word is looked up in lower case, in
    the order verb, noun, adjective, exclamation, and the first list that holds
    the word decides (nice is an adjective although it is also listed as an
    exclamation); a verb or a noun is replaced by the stem smurf inflected, an
    adjective by the stem smurfy inflected, an exclamation by the marker.  The
    word transformer maps fix to smurf and BROKEN to SMURFY; fixing, which is
    in no list, becomes smurfing when the chaos draw is below the chaos chance
    and stays fixing otherwise. *)
Theorem classification_precedence (U : Unicode) (chaos : Q) (draws : nat -> Q) :
  (forall (base : str) (n : nat),
      smurfify_base U chaos draws base n =
      match classify U base with
      | Verb | Noun => Returns (apply_inflection U (lit "smurf") base) n
      | Adjective => Returns (apply_inflection U (lit "smurfy") base) n
      | Exclaim => Returns (lit "Smurf!") n
      | Unclassified =>
          if isalpha U base then
            if Qltb (draws n) chaos
            then Returns (apply_inflection U (lit "smurf") base) (S n)
            else Returns base (S n)
          else Returns base n
      end)
  /\ (mem (lit "nice") ADJECTIVES = true /\ mem (lit "nice") EXCLAIMS = true
      /\ classify U (lit "nice") = Adjective)
  /\ transform U draws (lit "fix") = Some (lit "smurf")
  /\ transform U draws (lit "BROKEN") = Some (lit "SMURFY")
  /\ transform U draws (lit "fixing") =
     Some (if Qltb (draws 0) CHAOS_CHANCE then lit "smurfing" else lit "fixing").
Proof.
  split; [|split; [|split; [|split]]].
  - intros base n. apply smurfify_base_by_category.
  - repeat split.
  - reflexivity.
  - reflexivity.
  - apply transform_fixing.
Qed.

(** ** Lower case and the word lists *)

Lemma lexicon_letters (w : str) :
  In w (lit "some" :: LEXICON) -> w <> [] /\ forallb ascii_islower w = true.
Proof.
  assert (H : forallb (fun w => negb (str_eqb w []) && forallb ascii_islower w)
                      (lit "some" :: LEXICON) = true) by (vm_compute; reflexivity).
  rewrite forallb_forall in H. intro Hin. apply H in Hin.
  apply andb_true_iff in Hin as [Hne Hall]. split; [|assumption].
  intros ->. discriminate Hne.
Qed.

Lemma ascii_islower_ascii (c : char) : ascii_islower c = true -> is_ascii c = true.
Proof.
  unfold ascii_islower, between, is_ascii. intro H.
  apply andb_true_iff in H as [_ H]. apply N.leb_le in H. apply N.ltb_lt. lia.
Qed.

Lemma ascii_lower_islower (c : char) :
  ascii_islower (ascii_lower c) = true -> ascii_isalpha c = true.
Proof.
  unfold ascii_lower, ascii_isalpha. destruct (ascii_isupper c); [reflexivity|].
  intros ->. reflexivity.
Qed.

Section Lower.

Variable U : Unicode.

(** An ASCII code point of a string shows up, lowered, in the lowered
    string. *)
Lemma lower_from_In (whole : str) (i : nat) (rest : str) (c : char) :
  In c rest -> is_ascii c = true -> In (ascii_lower c) (lower_from U whole i rest).
Proof.
  revert i. induction rest as [|x tl IH]; intros i Hin Hc; [contradiction|].
  simpl. apply in_or_app. destruct Hin as [->|Hin].
  - left. unfold lower_cp. rewrite Hc. now left.
  - right. now apply IH.
Qed.

(** A string whose lowered form is made of ASCII lower-case letters holds no
    hyphen. *)
Lemma lower_letters_no_hyphen (s : str) :
  forallb ascii_islower (lower U s) = true ->
  forallb (fun c => negb (N.eqb c HYPHEN)) s = true.
Proof.
  intro H. apply forallb_forall. intros c Hc.
  apply negb_true_iff. apply N.eqb_neq. intros ->.
  apply (lower_from_In s 0) in Hc; [|reflexivity].
  rewrite forallb_forall in H. apply H in Hc. discriminate Hc.
Qed.

Hypothesis law : lower_keeps_letters U.

Lemma lower_from_letters (whole : str) (i : nat) (rest : str) :
  forallb ascii_islower (lower_from U whole i rest) = true ->
  forallb (isalpha_cp U) rest = true.
Proof.
  revert i. induction rest as [|c tl IH]; intros i H; [reflexivity|].
  simpl in H. rewrite forallb_app in H. apply andb_true_iff in H as [Hc Htl].
  simpl. rewrite (IH _ Htl), andb_true_r.
  unfold lower_cp in Hc. unfold isalpha_cp.
  destruct (is_ascii c) eqn:E.
  - simpl in Hc. rewrite andb_true_r in Hc. now apply ascii_lower_islower.
  - apply (law whole i c E). apply forallb_forall. intros x Hx.
    rewrite forallb_forall in Hc. apply ascii_islower_ascii. now apply Hc.
Qed.

(** A string whose lowered form is a listed word (or [some]) is alphabetic. *)
Lemma lower_listed_isalpha (s : str) :
  In (lower U s) (lit "some" :: LEXICON) -> isalpha U s = true.
Proof.
  intro Hin. apply lexicon_letters in Hin as [Hne Hall].
  unfold isalpha. destruct s as [|c tl]; [now elim Hne|].
  now apply (lower_from_letters (c :: tl) 0).
Qed.

End Lower.

(** ** The word transformer *)

Section Word.

Variable U : Unicode.
Variable chaos : Q.
Variable draws : nat -> Q.

(** The transformers of a sub-word and of a token always return. *)
Lemma smurfify_base_returns (base : str) (n : nat) :
  exists s n', smurfify_base U chaos draws base n = Returns s n'.
Proof.
  unfold smurfify_base.
  destruct (mem (lower U base) VERBS || mem (lower U base) NOUNS);
    [eexists; eexists; reflexivity|].
  destruct (mem (lower U base) ADJECTIVES); [eexists; eexists; reflexivity|].
  destruct (mem (lower U base) EXCLAIMS); [eexists; eexists; reflexivity|].
  destruct (isalpha U base); [|eexists; eexists; reflexivity].
  unfold bind, random. destruct (Qltb (draws n) chaos);
    eexists; eexists; reflexivity.
Qed.

Lemma mapM_smurfify_base_returns (parts : list str) (n : nat) :
  exists ss n', mapM (smurfify_base U chaos draws) parts n = Returns ss n'.
Proof.
  revert n. induction parts as [|p ps IH]; intro n.
  - exists [], n. reflexivity.
  - destruct (smurfify_base_returns p n) as [s [n1 H1]].
    destruct (IH n1) as [ss [n2 H2]].
    exists (s :: ss), n2. simpl. unfold bind. now rewrite H1, H2.
Qed.

Lemma smurfify_word_nomatch (word : str) (n : nat) :
  re_match U word = None -> smurfify_word U chaos draws word n = Returns word n.
Proof. intro H. unfold smurfify_word. now rewrite H. Qed.

Lemma smurfify_word_match (word base punct : str) (n : nat) :
  re_match U word = Some (base, punct) ->
  exists parts n',
    mapM (smurfify_base U chaos draws) (split_on HYPHEN base) n = Returns parts n'
    /\ smurfify_word U chaos draws word n =
       Returns (join [HYPHEN] parts ++ punct) n'.
Proof.
  intro H. unfold smurfify_word. rewrite H.
  destruct (mapM_smurfify_base_returns (split_on HYPHEN base) n) as [ps [n' Hps]].
  exists ps, n'. split; [assumption|]. unfold bind. now rewrite Hps.
Qed.

Lemma smurfify_word_returns (word : str) (n : nat) :
  exists s n', smurfify_word U chaos draws word n = Returns s n'.
Proof.
  destruct (re_match U word) as [[base punct]|] eqn:E.
  - destruct (smurfify_word_match word base punct n E) as [ps [n' [_ H]]]. eauto.
  - exists word, n. now apply smurfify_word_nomatch.
Qed.

(** A token whose base is a single sub-word. *)
Lemma smurfify_word_single (word base punct s : str) (n n' : nat) :
  re_match U word = Some (base, punct) ->
  forallb (fun c => negb (N.eqb c HYPHEN)) base = true ->
  smurfify_base U chaos draws base n = Returns s n' ->
  smurfify_word U chaos draws word n = Returns (s ++ punct) n'.
Proof.
  intros Hm Hh Hb. unfold smurfify_word. rewrite Hm, (split_on_absent _ _ Hh).
  simpl. unfold bind. now rewrite Hb.
Qed.

(** A sub-word that is not alphabetic is left alone, by every draw, whenever
    the Unicode database keeps letters. *)
Lemma smurfify_base_not_alpha (base : str) (n : nat) :
  lower_keeps_letters U -> isalpha U base = false ->
  smurfify_base U chaos draws base n = Returns base n.
Proof.
  intros law Hna.
  assert (Hout : forall S, (forall w, In w S -> In w LEXICON) ->
                           mem (lower U base) S = false).
  { intros S HS. destruct (mem (lower U base) S) eqn:E; [|reflexivity].
    apply mem_In in E. apply HS in E.
    rewrite (lower_listed_isalpha U law base) in Hna; [discriminate|now right]. }
  unfold smurfify_base, LEXICON in *.
  rewrite (Hout VERBS), (Hout NOUNS), (Hout ADJECTIVES), (Hout EXCLAIMS), Hna;
    [reflexivity| | | |]; intros w Hw; repeat (apply in_or_app; auto; right).
Qed.

End Word.

(** ** Exclamations *)

Lemma exclaim_only (w : str) :
  In w EXCLAIMS -> w <> lit "nice" ->
  mem w VERBS = false /\ mem w NOUNS = false /\ mem w ADJECTIVES = false.
Proof.
  assert (H : forallb (fun w => str_eqb w (lit "nice")
                                || negb (mem w VERBS || mem w NOUNS || mem w ADJECTIVES))
                      EXCLAIMS = true) by (vm_compute; reflexivity).
  rewrite forallb_forall in H. intros Hin Hnice. apply H in Hin.
  apply orb_true_iff in Hin as [Heq|Hno].
  - apply str_eqb_eq in Heq. contradiction.
  - apply negb_true_iff in Hno.
    apply orb_false_iff in Hno as [Hvn Ha].
    apply orb_false_iff in Hvn as [Hv Hn]. auto.
Qed.

(** C5, as the claim states it, fails: nice is in the exclaim set, and its
    substitute is smurfy, for it is an adjective first. *)
Lemma exclaim_nice_is_adjective :
  mem (lit "nice") EXCLAIMS = true
  /\ run (smurfify_base sample_unicode CHAOS_CHANCE (constant_draws 0%Q) (lit "nice"))
     = Some (lit "smurfy")
  /\ run (smurfify_base sample_unicode CHAOS_CHANCE (constant_draws 0%Q) (lit "nice"))
     <> Some (lit "Smurf!").
Proof. repeat split. vm_compute. discriminate. Qed.

(** C5, amended.  For every word of the exclaim set except nice (which is an
    adjective first), in any casing, the substitute is the literal marker
    Smurf! with no suffix and no casing applied and no draw made, and the word
    transformer appends the trailing punctuation of the token to the marker;
    wow! becomes Smurf!!. *)
Theorem exclaim_bypass (U : Unicode) (chaos : Q) (draws : nat -> Q)
        (base : str) (n : nat) :
  In (lower U base) EXCLAIMS -> lower U base <> lit "nice" ->
  smurfify_base U chaos draws base n = Returns (lit "Smurf!") n
  /\ (forall word punct : str,
         re_match U word = Some (base, punct) ->
         smurfify_word U chaos draws word n = Returns (lit "Smurf!" ++ punct) n)
  /\ transform U draws (lit "wow!") = Some (lit "Smurf!!").
Proof.
  intros Hin Hnice.
  assert (Hbase : smurfify_base U chaos draws base n = Returns (lit "Smurf!") n).
  { destruct (exclaim_only _ Hin Hnice) as [Hv [Hn Ha]].
    apply mem_In in Hin. unfold smurfify_base. now rewrite Hv, Hn, Ha, Hin. }
  split; [assumption|]. split; [|reflexivity].
  intros word punct Hm.
  apply (smurfify_word_single U chaos draws word base punct _ n n Hm);
    [|assumption].
  apply lower_letters_no_hyphen with (U := U).
  apply lexicon_letters. right. unfold LEXICON.
  repeat (apply in_or_app; auto; right).
Qed.

Lemma exclaim_bypass_witness :
  In (lower sample_unicode (lit "WOW")) EXCLAIMS
  /\ lower sample_unicode (lit "WOW") <> lit "nice"
  /\ smurfify_base sample_unicode CHAOS_CHANCE (constant_draws 0%Q) (lit "WOW") 0
     = Returns (lit "Smurf!") 0
  /\ (forall word punct : str,
         re_match sample_unicode word = Some (lit "WOW", punct) ->
         smurfify_word sample_unicode CHAOS_CHANCE (constant_draws 0%Q) word 0
         = Returns (lit "Smurf!" ++ punct) 0)
  /\ transform sample_unicode (constant_draws 0%Q) (lit "wow!") = Some (lit "Smurf!!").
Proof.
  assert (Hin : In (lower sample_unicode (lit "WOW")) EXCLAIMS)
    by (vm_compute; tauto).
  assert (Hnice : lower sample_unicode (lit "WOW") <> lit "nice")
    by (vm_compute; discriminate).
  split; [exact Hin|]. split; [exact Hnice|].
  exact (exclaim_bypass sample_unicode CHAOS_CHANCE (constant_draws 0%Q)
           (lit "WOW") 0 Hin Hnice).
Defined.

(** ** Punctuation *)

(** C6.  For a token of a line that has the base-and-punctuation shape, the
    word transformer returns the transformed sub-words, joined by hyphens,
    followed by the trailing punctuation of the token, unchanged; a token
    without the shape is returned unchanged; the two groups of the pattern
    concatenated are the token, and so is the result when the sub-words are
    left as they are. *)
Theorem punctuation_preserved (U : Unicode) (chaos : Q) (draws : nat -> Q)
        (line token : str) (n : nat) :
  In token (split U line) ->
  match re_match U token with
  | None => smurfify_word U chaos draws token n = Returns token n
  | Some (base, punct) =>
      base ++ punct = token
      /\ forallb is_punct punct = true
      /\ exists (parts : list str) (n' : nat),
          mapM (smurfify_base U chaos draws) (split_on HYPHEN base) n
          = Returns parts n'
          /\ smurfify_word U chaos draws token n
             = Returns (join [HYPHEN] parts ++ punct) n'
          /\ (parts = split_on HYPHEN base ->
              smurfify_word U chaos draws token n = Returns token n')
  end.
Proof.
  intro Hin. destruct (re_match U token) as [[base punct]|] eqn:E.
  - pose proof (re_match_token U line token base punct Hin E) as Hjoin.
    destruct (re_match_Some U token base punct E) as [_ [_ [_ Hp]]].
    destruct (smurfify_word_match U chaos draws token base punct n E)
      as [parts [n' [Hparts Hword]]].
    split; [assumption|]. split; [assumption|].
    exists parts, n'. repeat split; try assumption.
    intros ->. now rewrite Hword, join_split_on, Hjoin.
  - now apply smurfify_word_nomatch.
Qed.

Lemma punctuation_preserved_witness :
  In (lit "well-known,") (split sample_unicode (lit "a well-known, bug!"))
  /\ match re_match sample_unicode (lit "well-known,") with
     | None =>
         smurfify_word sample_unicode CHAOS_CHANCE (constant_draws (3 # 4)%Q)
           (lit "well-known,") 0
         = Returns (lit "well-known,") 0
     | Some (base, punct) =>
         base ++ punct = lit "well-known,"
         /\ forallb is_punct punct = true
         /\ exists (parts : list str) (n' : nat),
             mapM (smurfify_base sample_unicode CHAOS_CHANCE
                     (constant_draws (3 # 4)%Q)) (split_on HYPHEN base) 0
             = Returns parts n'
             /\ smurfify_word sample_unicode CHAOS_CHANCE
                  (constant_draws (3 # 4)%Q) (lit "well-known,") 0
                = Returns (join [HYPHEN] parts ++ punct) n'
             /\ (parts = split_on HYPHEN base ->
                 smurfify_word sample_unicode CHAOS_CHANCE
                   (constant_draws (3 # 4)%Q) (lit "well-known,") 0
                 = Returns (lit "well-known,") n')
     end.
Proof.
  assert (Hin : In (lit "well-known,")
                   (split sample_unicode (lit "a well-known, bug!")))
    by (vm_compute; tauto).
  split; [exact Hin|].
  exact (punctuation_preserved sample_unicode CHAOS_CHANCE
           (constant_draws (3 # 4)%Q) (lit "a well-known, bug!")
           (lit "well-known,") 0 Hin).
Defined.

(** ** The chaos fallback *)

(** C7.  The draws lie between 0 (included) and 1 (excluded).  With the chaos
    chance at 1 every unclassified alphabetic sub-word is replaced by the stem
    smurf inflected; with the chaos chance at 0 every unclassified sub-word is
    returned unchanged; a classified word gets the same substitute, and makes
    no draw, whatever the chaos chance. *)
Theorem chaos_extremes (U : Unicode) (draws : nat -> Q) (base : str) (n : nat) :
  (0 <= draws n)%Q -> (draws n < 1)%Q ->
  (classify U base = Unclassified -> isalpha U base = true ->
   smurfify_base U 1%Q draws base n
   = Returns (apply_inflection U (lit "smurf") base) (S n))
  /\ (classify U base = Unclassified ->
      exists n', smurfify_base U 0%Q draws base n = Returns base n')
  /\ (classify U base <> Unclassified ->
      forall c1 c2 : Q,
        smurfify_base U c1 draws base n = smurfify_base U c2 draws base n
        /\ exists s, smurfify_base U c1 draws base n = Returns s n).
Proof.
  intros Hlo Hhi. split; [|split].
  - intros Hu Ha. rewrite smurfify_base_by_category, Hu, Ha.
    apply Qltb_lt in Hhi. now rewrite Hhi.
  - intro Hu. rewrite smurfify_base_by_category, Hu.
    apply Qltb_ge in Hlo. rewrite Hlo.
    destruct (isalpha U base); eauto.
  - intros Hc c1 c2. rewrite !smurfify_base_by_category.
    destruct (classify U base); try (split; [reflexivity | eauto]).
    now elim Hc.
Qed.

Lemma chaos_extremes_witness :
  (0 <= constant_draws (1 # 2)%Q 0)%Q
  /\ (constant_draws (1 # 2)%Q 0 < 1)%Q
  /\ classify sample_unicode (lit "Zebras") = Unclassified
  /\ isalpha sample_unicode (lit "Zebras") = true
  /\ smurfify_base sample_unicode 1%Q (constant_draws (1 # 2)%Q) (lit "Zebras") 0
     = Returns (lit "Smurfs") 1
  /\ exists n',
      smurfify_base sample_unicode 0%Q (constant_draws (1 # 2)%Q) (lit "Zebras") 0
      = Returns (lit "Zebras") n'.
Proof.
  assert (Hlo : (0 <= constant_draws (1 # 2)%Q 0)%Q)
    by (unfold Qle; simpl; lia).
  assert (Hhi : (constant_draws (1 # 2)%Q 0 < 1)%Q)
    by (unfold Qlt; simpl; lia).
  destruct (chaos_extremes sample_unicode (constant_draws (1 # 2)%Q)
              (lit "Zebras") 0 Hlo Hhi) as [Hone [Hzero _]].
  split; [exact Hlo|]. split; [exact Hhi|].
  split; [reflexivity|]. split; [reflexivity|].
  split; [exact (Hone eq_refl eq_refl) | exact (Hzero eq_refl)].
Defined.

(** ** The idiom rule *)

(** C1.  Whatever the draws, [processLine] maps fix some bug to smurf some bug
    or to fix some smurf: one of fix and bug is replaced by its transform
    (smurf for both), the other and the middle token are as in the input; the
    first draw decides, so both lines are reached. *)
Theorem idiom_rule (U : Unicode) :
  (forall draws : nat -> Q,
      processLine U draws (lit "fix some bug") =
      Some (if Qltb (draws 0) (1 # 2)%Q
            then join (lit " ") [lit "smurf"; lit "some"; lit "bug"]
            else join (lit " ") [lit "fix"; lit "some"; lit "smurf"]))
  /\ (forall draws : nat -> Q,
         processLine U draws (lit "fix some bug") = Some (lit "smurf some bug")
         \/ processLine U draws (lit "fix some bug") = Some (lit "fix some smurf"))
  /\ (forall draws : nat -> Q,
         transform U draws (lit "fix") = Some (lit "smurf")
         /\ transform U draws (lit "bug") = Some (lit "smurf"))
  /\ (exists draws : nat -> Q,
         processLine U draws (lit "fix some bug") = Some (lit "smurf some bug"))
  /\ (exists draws : nat -> Q,
         processLine U draws (lit "fix some bug") = Some (lit "fix some smurf")).
Proof.
  split; [|split; [|split; [|split]]].
  - intro draws. apply fix_some_bug.
  - intro draws. rewrite fix_some_bug.
    destruct (Qltb (draws 0) (1 # 2)%Q); [now left | now right].
  - intro draws. split; reflexivity.
  - exists (constant_draws 0%Q). now rewrite fix_some_bug.
  - exists (constant_draws (3 # 4)%Q). now rewrite fix_some_bug.
Qed.

(** ** Connectors *)

Lemma connector_not_some (U : Unicode) (c : str) :
  mem (lower U c) CONNECTORS = true -> str_eqb (lower U c) (lit "some") = false.
Proof.
  intro H. destruct (str_eqb (lower U c) (lit "some")) eqn:E; [|reflexivity].
  apply str_eqb_eq in E. rewrite E in H. vm_compute in H. discriminate.
Qed.

(** With a connector in the middle of the window, the loop body is the second
    rule. *)
Lemma loop_body_connector (U : Unicode) (chaos : Q) (draws : nat -> Q)
      (pre post : list str) (w1 c w2 : str) (result : list str) (n : nat) :
  mem (lower U c) CONNECTORS = true ->
  loop_body U chaos draws (pre ++ w1 :: c :: w2 :: post) (List.length pre) result n =
  (s1 <- smurfify_word U chaos draws w1 ;;
   s2 <- smurfify_word U chaos draws w2 ;;
   if is_smurfed U s1 && is_smurfed U s2 then
     r <- random draws ;;
     if Qltb r (1 # 2)%Q
     then ret (List.length pre + 3, result ++ [s1; c; w2])
     else ret (List.length pre + 3, result ++ [w1; c; s2])
   else
     s <- smurfify_word U chaos draws w1 ;;
     ret (List.length pre + 1, result ++ [s])) n.
Proof.
  intro Hc. rewrite loop_body_window. unfold on_window.
  now rewrite (connector_not_some U c Hc), Hc.
Qed.




(** ** One word or three *)

(** The words from index [i] on, when at least three are left. *)
Lemma window_at (words : list str) (i : nat) :
  i + 2 < List.length words ->
  exists (pre post : list str) (w1 c w2 : str),
    words = pre ++ w1 :: c :: w2 :: post /\ List.length pre = i.
Proof.
  intro Hlt. exists (firstn i words).
  pose proof (firstn_skipn i words) as Hsplit.
  pose proof (length_skipn i words) as Hlen.
  destruct (skipn i words) as [|w1 [|c [|w2 post]]]; simpl in Hlen; try lia.
  exists post, w1, c, w2. split; [now symmetry|].
  rewrite length_firstn. lia.
Qed.

(** The first test of the loop body never raises, and holds only on a full
    window whose middle word is some. *)
Lemma idiom_window_true (U : Unicode) (words : list str) (i n n' : nat) :
  idiom_window U words i n = Returns true n' ->
  exists (pre post : list str) (w1 c w2 : str),
    words = pre ++ w1 :: c :: w2 :: post /\ List.length pre = i
    /\ str_eqb (lower U c) (lit "some")
       && mem (re_sub U (lower U w1)) VERBS
       && mem (re_sub U (lower U w2)) NOUNS = true.
Proof.
  intro H. destruct (Nat.ltb_spec (i + 2) (List.length words)) as [Hlt|Hge].
  - destruct (window_at words i Hlt) as [pre [post [w1 [c [w2 [-> <-]]]]]].
    exists pre, post, w1, c, w2. repeat split.
    apply Nat.ltb_lt in Hlt. unfold idiom_window in H.
    rewrite Hlt, !(index_app pre), !(index_here pre) in H.
    cbn [nth_error] in H. unfold andM, bind, ret in H. cbv beta iota in H.
    destruct (str_eqb (lower U c) (lit "some"));
      destruct (mem (re_sub U (lower U w1)) VERBS);
      destruct (mem (re_sub U (lower U w2)) NOUNS);
      cbv beta iota in H; cbn [andb] in *; congruence.
  - apply Nat.ltb_ge in Hge. unfold idiom_window, andM, bind, ret in H.
    rewrite Hge in H. discriminate.
Qed.

(** C8.  When the word after the current one is a connector but the transforms
    [s1] and [s2] of its neighbours do not both start with smurf, the loop
    emits one word only, a new transform of the current word made after the
    two speculative ones, and goes on from the next index; when the idiom
    window holds, the loop always emits three words and moves three words
    on. *)
Theorem connector_fallback (U : Unicode) (chaos : Q) (draws : nat -> Q)
        (pre post : list str) (w1 c w2 : str) (result : list str)
        (n n1 n2 : nat) (s1 s2 : str) :
  mem (lower U c) CONNECTORS = true ->
  smurfify_word U chaos draws w1 n = Returns s1 n1 ->
  smurfify_word U chaos draws w2 n1 = Returns s2 n2 ->
  is_smurfed U s1 && is_smurfed U s2 = false ->
  (exists (s : str) (n3 : nat),
      smurfify_word U chaos draws w1 n2 = Returns s n3
      /\ loop_body U chaos draws (pre ++ w1 :: c :: w2 :: post)
           (List.length pre) result n
         = Returns (List.length pre + 1, result ++ [s]) n3
      /\ forall fuel : nat,
          while_loop U chaos draws (S fuel) (pre ++ w1 :: c :: w2 :: post)
            (List.length pre) result n
          = while_loop U chaos draws fuel (pre ++ w1 :: c :: w2 :: post)
              (List.length pre + 1) (result ++ [s]) n3)
  /\ (forall (words : list str) (i m m' : nat),
         idiom_window U words i m = Returns true m' ->
         exists (a b : str) (m'' : nat),
           loop_body U chaos draws words i result m
           = Returns (i + 3, result ++ [a; lit "some"; b]) m'').
Proof.
  intros Hc H1 H2 Hno. split.
  - destruct (smurfify_word_returns U chaos draws w1 n2) as [s [n3 H3]].
    assert (Hbody : loop_body U chaos draws (pre ++ w1 :: c :: w2 :: post)
                      (List.length pre) result n
                    = Returns (List.length pre + 1, result ++ [s]) n3).
    { rewrite (loop_body_connector U chaos draws pre post w1 c w2 result n Hc).
      unfold bind, ret. now rewrite H1, H2, Hno, H3. }
    exists s, n3. repeat split; [assumption..|].
    intro fuel. simpl while_loop.
    assert (Hlt : (List.length pre <? List.length (pre ++ w1 :: c :: w2 :: post))
                  = true).
    { apply Nat.ltb_lt. rewrite length_app. simpl. lia. }
    rewrite Hlt. unfold bind. now rewrite Hbody.
  - intros words i m m' Hidiom.
    destruct (idiom_window_true U words i m m' Hidiom)
      as [pre' [post' [v [c' [w [-> [<- Htest]]]]]]].
    rewrite loop_body_window. unfold on_window. rewrite Htest.
    unfold bind, random, ret.
    destruct (Qltb (draws m) (1 # 2)%Q).
    + destruct (smurfify_word_returns U chaos draws v (S m)) as [a [k Ha]].
      rewrite Ha. eauto.
    + destruct (smurfify_word_returns U chaos draws w (S m)) as [b [k Hb]].
      rewrite Hb. eauto.
Qed.

Lemma connector_fallback_witness :
  let U := sample_unicode in
  let draws := constant_draws (3 # 4)%Q in
  let words := [lit "we"] ++ [lit "tested"; lit "and"; lit "bug."; lit "today"] in
  mem (lower U (lit "and")) CONNECTORS = true
  /\ smurfify_word U CHAOS_CHANCE draws (lit "tested") 0 = Returns (lit "tested") 1
  /\ smurfify_word U CHAOS_CHANCE draws (lit "bug.") 1 = Returns (lit "smurf.") 1
  /\ is_smurfed U (lit "tested") && is_smurfed U (lit "smurf.") = false
  /\ exists (s : str) (n3 : nat),
      smurfify_word U CHAOS_CHANCE draws (lit "tested") 1 = Returns s n3
      /\ loop_body U CHAOS_CHANCE draws words 1 [lit "we"] 0
         = Returns (1 + 1, [lit "we"] ++ [s]) n3
      /\ forall fuel : nat,
          while_loop U CHAOS_CHANCE draws (S fuel) words 1 [lit "we"] 0
          = while_loop U CHAOS_CHANCE draws fuel words (1 + 1) ([lit "we"] ++ [s]) n3.
Proof.
  intros U draws words.
  split; [reflexivity|]. split; [reflexivity|]. split; [reflexivity|].
  split; [reflexivity|].
  exact (proj1 (connector_fallback U CHAOS_CHANCE draws
                  [lit "we"] [lit "today"] (lit "tested") (lit "and") (lit "bug.")
                  [lit "we"] 0 1 1 (lit "tested") (lit "smurf.")
                  eq_refl eq_refl eq_refl eq_refl)).
Defined.

(** ** Collision partners *)



(** ** Tokens that pass through the line transformer *)

Lemma sample_unicode_keeps_letters : lower_keeps_letters sample_unicode.
Proof.
  intros whole i c Hc. simpl.
  destruct (N.eqb c 201) eqn:E1; [now rewrite orb_true_l|].
  destruct (N.eqb c 8490) eqn:E2; [intros _; now rewrite !orb_true_r|].
  simpl. rewrite Hc. discriminate.
Qed.

Lemma isalpha_cp_is_word (U : Unicode) (c : char) :
  isalpha_cp U c = true -> is_word_or_hyphen U c = true.
Proof. intro H. unfold is_word_or_hyphen, is_word. now rewrite H. Qed.

Section Line.

Variable U : Unicode.
Variable chaos : Q.
Variable draws : nat -> Q.

Lemma mapM_not_alpha (parts : list str) (n : nat) :
  lower_keeps_letters U ->
  forallb (fun part => negb (isalpha U part)) parts = true ->
  mapM (smurfify_base U chaos draws) parts n = Returns parts n.
Proof.
  intros law. induction parts as [|p ps IH]; intro H; [reflexivity|].
  simpl in H. apply andb_true_iff in H as [Hp Hps].
  apply negb_true_iff in Hp. simpl. unfold bind.
  now rewrite (smurfify_base_not_alpha U chaos draws p n law Hp), (IH Hps).
Qed.

Lemma smurfify_word_kept (token out : str) (n n' : nat) :
  forallb (fun c => negb (isspace_cp U c)) token = true ->
  smurfify_word U chaos draws token n = Returns out n' ->
  kept U token out.
Proof.
  intros Hws Hout law Hpass. unfold passes_through in Hpass.
  unfold smurfify_word in Hout.
  destruct (re_match U token) as [[base punct]|] eqn:E.
  - unfold bind in Hout. rewrite (mapM_not_alpha _ n law Hpass) in Hout.
    injection Hout as <- _. rewrite join_split_on.
    destruct (re_match_Some U token base punct E) as [[H|H] _]; [now symmetry|].
    elim (token_no_newline U token base punct Hws H).
  - now injection Hout as <- _.
Qed.

(** A word that reads some in lower case does not pass through: it is put out
    in lower case by the idiom rule. *)
Lemma some_kept (c : str) :
  str_eqb (lower U c) (lit "some") = true -> kept U c (lit "some").
Proof.
  intros Hsome law Hpass. exfalso.
  apply str_eqb_eq in Hsome.
  assert (Hin : In (lower U c) (lit "some" :: LEXICON)) by (now left).
  pose proof (lower_listed_isalpha U law c Hin) as Halpha.
  destruct (lexicon_letters _ Hin) as [_ Hletters].
  pose proof (lower_letters_no_hyphen U c Hletters) as Hhyphen.
  assert (Hne : c <> []) by (intros ->; discriminate Halpha).
  assert (Hword : forallb (is_word_or_hyphen U) c = true).
  { unfold isalpha in Halpha. destruct c as [|x tl]; [discriminate|].
    rewrite forallb_forall in *. intros y Hy.
    apply (isalpha_cp_is_word U). now apply Halpha. }
  unfold passes_through in Hpass.
  rewrite (re_match_word U c Hne Hword), (split_on_absent _ _ Hhyphen) in Hpass.
  simpl in Hpass. now rewrite Halpha in Hpass.
Qed.

Lemma kept_same (token : str) : kept U token token.
Proof. intros _ _. reflexivity. Qed.

(** The loop, started on the words that remain, runs to the end of the line
    within as many iterations as there are words left. *)
Lemma while_loop_exits (fuel : nat) :
  forall (pre rest result : list str) (n : nat),
    List.length rest <= fuel ->
    Forall (fun t => forallb (fun c => negb (isspace_cp U c)) t = true)
           (pre ++ rest) ->
    Forall2 (kept U) pre result ->
    exists (result' : list str) (n' : nat),
      while_loop U chaos draws fuel (pre ++ rest) (List.length pre) result n
      = Returns (List.length (pre ++ rest), result') n'
      /\ Forall2 (kept U) (pre ++ rest) result'.
Proof.
  induction fuel as [fuel IH] using lt_wf_ind.
  intros pre rest result n Hfuel Hws Hkept.
  destruct rest as [|w rest].
  - exists result, n. rewrite app_nil_r. split; [|assumption].
    destruct fuel; simpl; rewrite Nat.ltb_irrefl; reflexivity.
  - destruct fuel as [|fuel]; [simpl in Hfuel; lia|].
    assert (Hlt : (List.length pre <? List.length (pre ++ w :: rest)) = true).
    { apply Nat.ltb_lt. rewrite length_app. simpl. lia. }
    assert (Hw : forallb (fun c => negb (isspace_cp U c)) w = true).
    { rewrite Forall_forall in Hws. apply Hws. apply in_or_app. right. now left. }
    (* one more word taken *)
    assert (Hone : forall (s : str) (m : nat),
               kept U w s ->
               exists (result' : list str) (n' : nat),
                 while_loop U chaos draws fuel (pre ++ w :: rest)
                   (List.length pre + 1) (result ++ [s]) m
                 = Returns (List.length (pre ++ w :: rest), result') n'
                 /\ Forall2 (kept U) (pre ++ w :: rest) result').
    { intros s m Hs.
      replace (pre ++ w :: rest) with ((pre ++ [w]) ++ rest) in *
        by (now rewrite <- app_assoc).
      replace (List.length pre + 1) with (List.length (pre ++ [w]))
        by (rewrite length_app; reflexivity).
      apply IH; [lia | simpl in Hfuel; lia | assumption |].
      apply Forall2_app; [assumption | constructor; [assumption|constructor]]. }
    simpl while_loop. rewrite Hlt. unfold bind at 1.
    destruct rest as [|c [|w2 post]];
      try (rewrite loop_body_short by (simpl; lia);
           unfold bind, ret;
           destruct (smurfify_word_returns U chaos draws w n) as [s [m Hs]];
           rewrite Hs; cbn [fst snd]; apply Hone;
           now apply (smurfify_word_kept w s n m)).
    assert (Hw2 : forallb (fun c => negb (isspace_cp U c)) w2 = true).
    { rewrite Forall_forall in Hws. apply Hws. apply in_or_app. right.
      right. right. now left. }
    (* three more words taken *)
    assert (Hthree : forall (a b d : str) (m : nat),
               kept U w a -> kept U c b -> kept U w2 d ->
               exists (result' : list str) (n' : nat),
                 while_loop U chaos draws fuel (pre ++ w :: c :: w2 :: post)
                   (List.length pre + 3) (result ++ [a; b; d]) m
                 = Returns (List.length (pre ++ w :: c :: w2 :: post), result') n'
                 /\ Forall2 (kept U) (pre ++ w :: c :: w2 :: post) result').
    { intros a b d m Ha Hb Hd.
      replace (pre ++ w :: c :: w2 :: post) with ((pre ++ [w; c; w2]) ++ post) in *
        by (now rewrite <- app_assoc).
      replace (List.length pre + 3) with (List.length (pre ++ [w; c; w2]))
        by (rewrite length_app; reflexivity).
      apply IH; [lia | simpl in Hfuel; lia | assumption |].
      apply Forall2_app; [assumption | repeat constructor; assumption]. }
    rewrite loop_body_window. unfold on_window.
    destruct (str_eqb (lower U c) (lit "some")
              && mem (re_sub U (lower U w)) VERBS
              && mem (re_sub U (lower U w2)) NOUNS) eqn:Hidiom.
    + apply andb_true_iff in Hidiom as [Hidiom _].
      apply andb_true_iff in Hidiom as [Hsome _].
      unfold bind, random, ret.
      destruct (Qltb (draws n) (1 # 2)%Q).
      * destruct (smurfify_word_returns U chaos draws w (S n)) as [s [m Hs]].
        rewrite Hs. cbn [fst snd]. apply Hthree.
        -- now apply (smurfify_word_kept w s (S n) m).
        -- now apply some_kept.
        -- apply kept_same.
      * destruct (smurfify_word_returns U chaos draws w2 (S n)) as [s [m Hs]].
        rewrite Hs. cbn [fst snd]. apply Hthree.
        -- apply kept_same.
        -- now apply some_kept.
        -- now apply (smurfify_word_kept w2 s (S n) m).
    + destruct (smurfify_word_returns U chaos draws w n) as [s1 [n1 Hs1]].
      destruct (smurfify_word_returns U chaos draws w2 n1) as [s2 [n2 Hs2]].
      destruct (smurfify_word_returns U chaos draws w n2) as [s [n3 Hs3]].
      destruct (mem (lower U c) CONNECTORS).
      * unfold bind, random, ret. rewrite Hs1, Hs2.
        destruct (is_smurfed U s1 && is_smurfed U s2).
        -- destruct (Qltb (draws n2) (1 # 2)%Q); cbn [fst snd]; apply Hthree;
             try apply kept_same.
           ++ now apply (smurfify_word_kept w s1 n n1).
           ++ now apply (smurfify_word_kept w2 s2 n1 n2).
        -- rewrite Hs3. cbn [fst snd]. apply Hone.
           now apply (smurfify_word_kept w s n2 n3).
      * unfold bind, ret. rewrite Hs1. cbn [fst snd]. apply Hone.
        now apply (smurfify_word_kept w s1 n n1).
Qed.

End Line.

(** The line transformer returns on every line: it neither raises nor runs out
    of iterations. *)
Lemma smurfify_line_returns (U : Unicode) (chaos : Q) (draws : nat -> Q)
      (line : str) (n : nat) :
  exists (result : list str) (n' : nat),
    while_loop U chaos draws (List.length (split U line)) (split U line) 0 [] n
    = Returns (List.length (split U line), result) n'
    /\ smurfify_line U chaos draws line n = Returns (join (lit " ") result) n'
    /\ Forall2 (kept U) (split U line) result.
Proof.
  destruct (while_loop_exits U chaos draws (List.length (split U line))
              [] (split U line) [] n) as [result [n' [Hloop Hkept]]].
  - apply Nat.le_refl.
  - apply Forall_forall. intros t Ht. now apply (split_tokens U line t).
  - constructor.
  - simpl in Hloop, Hkept. exists result, n'.
    split; [assumption|]. split; [|assumption].
    unfold smurfify_line, bind, ret. now rewrite Hloop.
Qed.

(** C9, as the claim states it, fails: the token fix-123 has the shape of the
    pattern and its base, fix-123, is not alphabetic, yet the line transformer
    changes it, whatever the draws, because the sub-word fix is a listed
    verb. *)
Lemma hyphenated_token_changes :
  re_match sample_unicode (lit "fix-123") = Some (lit "fix-123", [])
  /\ isalpha sample_unicode (lit "fix-123") = false
  /\ processLine sample_unicode (constant_draws 0%Q) (lit "fix-123")
     = Some (lit "smurf-123")
  /\ processLine sample_unicode (constant_draws 0%Q) (lit "fix-123")
     <> Some (lit "fix-123").
Proof. repeat split. vm_compute. discriminate. Qed.

(** C9, amended.  [processLine] returns a line for every input line: it raises
    no exception and its loop ends; the empty line gives the empty line; the
    output is the list of the words put out for the tokens of the input, in
    order and joined by single spaces, and a token that does not have the
    base-and-punctuation shape, or none of whose hyphen-separated sub-words is
    alphabetic, is put out unchanged.  The tokens 123 and U+1F600 are such
    tokens. *)
Theorem line_total (U : Unicode) (draws : nat -> Q) (line : str) :
  (exists (result : list str) (n : nat),
      smurfify_line U CHAOS_CHANCE draws line 0 = Returns (join (lit " ") result) n
      /\ processLine U draws line = Some (join (lit " ") result)
      /\ Forall2 (fun token out : str =>
                    lower_keeps_letters U -> passes_through U token = true ->
                    out = token)
                 (split U line) result)
  /\ processLine U draws [] = Some []
  /\ (passes_through U (lit "123") = true
      /\ processLine U draws (lit "123") = Some (lit "123"))
  /\ (re_match sample_unicode [128512%N] = None
      /\ passes_through sample_unicode [128512%N] = true
      /\ processLine sample_unicode draws [128512%N] = Some [128512%N]).
Proof.
  split; [|repeat split].
  destruct (smurfify_line_returns U CHAOS_CHANCE draws line 0)
    as [result [n [_ [Hline Hkept]]]].
  exists result, n. split; [assumption|]. split; [|exact Hkept].
  unfold processLine, run. now rewrite Hline.
Qed.

Lemma line_total_witness :
  exists (result : list str),
    processLine sample_unicode (constant_draws 0%Q) (lit "fix 1-2, (bug)")
    = Some (join (lit " ") result)
    /\ nth_error result 1 = Some (lit "1-2,")
    /\ nth_error result 2 = Some (lit "(bug)").
Proof.
  destruct (line_total sample_unicode (constant_draws 0%Q) (lit "fix 1-2, (bug)"))
    as [[result [n [_ [Hline Hkept]]]] _].
  exists result. split; [exact Hline|].
  change (split sample_unicode (lit "fix 1-2, (bug)"))
    with [lit "fix"; lit "1-2,"; lit "(bug)"] in Hkept.
  inversion Hkept as [|t0 r0 ts0 rs0 _ H0]; subst.
  inversion H0 as [|t1 r1 ts1 rs1 K1 H1]; subst.
  inversion H1 as [|t2 r2 ts2 rs2 K2 H2]; subst.
  rewrite (K1 sample_unicode_keeps_letters eq_refl).
  rewrite (K2 sample_unicode_keeps_letters eq_refl).
  split; reflexivity.
Defined.

(** * Further properties *)

(** ** The substitutes *)

Lemma apply_inflection_smurf_forms (U : Unicode) (original : str) :
  In (apply_inflection U (lit "smurf") original) SMURF_FORMS.
Proof.
  unfold apply_inflection.
  destruct (endswith (lower U original) (lit "ing"));
    [|destruct (endswith (lower U original) (lit "ed"));
      [|destruct (endswith (lower U original) (lit "s")
                  && negb (endswith (lower U original) (lit "ss")))]];
    destruct (isupper U original); try destruct (istitle U original);
    cbv; tauto.
Qed.

Lemma apply_inflection_smurfy_forms (U : Unicode) (original : str) :
  In (apply_inflection U (lit "smurfy") original) SMURFY_FORMS.
Proof.
  unfold apply_inflection.
  destruct (endswith (lower U original) (lit "ing"));
    [|destruct (endswith (lower U original) (lit "ed"));
      [|destruct (endswith (lower U original) (lit "s")
                  && negb (endswith (lower U original) (lit "ss")))]];
    destruct (isupper U original); try destruct (istitle U original);
    cbv; tauto.
Qed.

Lemma smurfify_base_result (U : Unicode) (chaos : Q) (draws : nat -> Q)
        (base s : str) (n n' : nat) :
  smurfify_base U chaos draws base n = Returns s n' ->
  s = base \/ In s SUBSTITUTES.
Proof.
  rewrite smurfify_base_by_category. unfold SUBSTITUTES.
  pose proof (apply_inflection_smurf_forms U base) as Hs.
  pose proof (apply_inflection_smurfy_forms U base) as Hy.
  destruct (classify U base);
    try (intro H; injection H as <- _; right;
         repeat (apply in_or_app; auto; right); fail).
  - intro H; injection H as <- _; right. apply in_or_app. right.
    apply in_or_app. right. now left.
  - destruct (isalpha U base); [destruct (Qltb (draws n) chaos)|];
      intro H; injection H as <- _; auto.
    right. apply in_or_app. now left.
Qed.

(** X1.  [smurfify_base] returns its argument or one of twenty-five
    substitutes (the twelve forms of each stem and the marker); it invents no
    other string. *)
Theorem smurfify_base_range (U : Unicode) (chaos : Q) (draws : nat -> Q)
        (base s : str) (n n' : nat) :
  smurfify_base U chaos draws base n = Returns s n' ->
  s = base \/ In s SUBSTITUTES.
Proof.
  rewrite smurfify_base_by_category. unfold SUBSTITUTES.
  destruct (classify U base) eqn:Hclass.
  - intro H. injection H as <- _. right. apply in_or_app. left.
    apply apply_inflection_smurf_forms.
  - intro H. injection H as <- _. right. apply in_or_app. left.
    apply apply_inflection_smurf_forms.
  - intro H. injection H as <- _. right. apply in_or_app. right.
    apply in_or_app. left. apply apply_inflection_smurfy_forms.
  - intro H. injection H as <- _. right. apply in_or_app. right.
    apply in_or_app. right. now left.
  - destruct (isalpha U base); [destruct (Qltb (draws n) chaos)|];
      intro H; injection H as <- _; auto.
    right. apply in_or_app. left. apply apply_inflection_smurf_forms.
Qed.

Lemma smurfify_base_range_witness :
  smurfify_base sample_unicode CHAOS_CHANCE (constant_draws 0%Q) (lit "Zebras") 0
  = Returns (lit "Smurfs") 1
  /\ (lit "Smurfs" = lit "Zebras" \/ In (lit "Smurfs") SUBSTITUTES).
Proof.
  split; [reflexivity|].
  exact (smurfify_base_range sample_unicode CHAOS_CHANCE (constant_draws 0%Q)
           (lit "Zebras") (lit "Smurfs") 0 1 eq_refl).
Defined.

(** ** The draws a word costs *)

Lemma smurfify_base_draws (U : Unicode) (chaos : Q) (draws : nat -> Q)
      (base s : str) (n n' : nat) :
  smurfify_base U chaos draws base n = Returns s n' ->
  n' = n + (if draws_one U base then 1 else 0).
Proof.
  rewrite smurfify_base_by_category. unfold draws_one.
  destruct (classify U base);
    try (intro H; injection H as _ <-; lia).
  destruct (isalpha U base); [destruct (Qltb (draws n) chaos)|];
    intro H; injection H as _ <-; lia.
Qed.

Lemma mapM_smurfify_base_draws (U : Unicode) (chaos : Q) (draws : nat -> Q)
      (parts ss : list str) (n n' : nat) :
  mapM (smurfify_base U chaos draws) parts n = Returns ss n' ->
  n' = n + List.length (filter (draws_one U) parts)
  /\ List.length ss = List.length parts.
Proof.
  revert ss n n'. induction parts as [|p ps IH]; intros ss n n' H.
  - injection H as <- <-. simpl. split; [lia | reflexivity].
  - simpl in H. unfold bind in H.
    destruct (smurfify_base U chaos draws p n) as [s n1|] eqn:Hp; [|discriminate].
    destruct (mapM (smurfify_base U chaos draws) ps n1) as [ss' n2|] eqn:Hps;
      [|discriminate].
    injection H as <- <-.
    apply smurfify_base_draws in Hp. destruct (IH _ _ _ Hps) as [Hn Hl].
    simpl. destruct (draws_one U p); simpl; lia.
Qed.

(** X2.  The word transformer calls [random.random()] once for each
    hyphen-separated sub-word that is unclassified and alphabetic, and never
    for a token without the shape of the pattern: the state of the source
    after the call is known from the token alone. *)
Theorem smurfify_word_draws (U : Unicode) (chaos : Q) (draws : nat -> Q)
        (word s : str) (n n' : nat) :
  smurfify_word U chaos draws word n = Returns s n' ->
  n' = n + match re_match U word with
           | None => 0
           | Some (base, _) =>
               List.length (filter (draws_one U) (split_on HYPHEN base))
           end.
Proof.
  unfold smurfify_word. destruct (re_match U word) as [[base punct]|].
  - unfold bind.
    destruct (mapM (smurfify_base U chaos draws) (split_on HYPHEN base) n)
      as [ss n1|] eqn:E; [|discriminate].
    intro H. injection H as _ <-.
    now apply mapM_smurfify_base_draws in E as [E _].
  - intro H. injection H as _ <-. lia.
Qed.

Lemma smurfify_word_draws_witness :
  smurfify_word sample_unicode CHAOS_CHANCE (constant_draws (3 # 4)%Q)
    (lit "well-fixed-bug,") 5
  = Returns (lit "well-fixed-smurf,") 7
  /\ 7 = 5 + match re_match sample_unicode (lit "well-fixed-bug,") with
             | None => 0
             | Some (base, _) =>
                 List.length (filter (draws_one sample_unicode)
                                     (split_on HYPHEN base))
             end.
Proof.
  split; [reflexivity|].
  exact (smurfify_word_draws sample_unicode CHAOS_CHANCE
           (constant_draws (3 # 4)%Q) (lit "well-fixed-bug,")
           (lit "well-fixed-smurf,") 5 7 eq_refl).
Defined.

(** ** Sources that agree *)

Lemma mapM_smurfify_base_agree (U : Unicode) (chaos : Q) (d1 d2 : nat -> Q)
      (parts : list str) (n : nat) :
  (forall k, n <= k < n + List.length (filter (draws_one U) parts) ->
             d1 k = d2 k) ->
  mapM (smurfify_base U chaos d1) parts n
  = mapM (smurfify_base U chaos d2) parts n.
Proof.
  revert n. induction parts as [|p ps IH]; intros n H; [reflexivity|].
  simpl. unfold bind.
  assert (Hp : smurfify_base U chaos d1 p n = smurfify_base U chaos d2 p n).
  { rewrite !smurfify_base_by_category. unfold draws_one in H. simpl in H.
    destruct (classify U p); try reflexivity.
    destruct (isalpha U p); [|reflexivity].
    rewrite (H n); [reflexivity|]. simpl. lia. }
  rewrite <- Hp.
  destruct (smurfify_base U chaos d1 p n) as [s n1|] eqn:E; [|reflexivity].
  apply smurfify_base_draws in E.
  rewrite (IH n1); [reflexivity|].
  intros k Hk. apply H. simpl.
  destruct (draws_one U p); simpl; lia.
Qed.

(** X3.  The word transformer looks at the values of the source only at the
    positions it draws: two sources that agree there give the same result. *)
Theorem smurfify_word_agree (U : Unicode) (chaos : Q) (d1 d2 : nat -> Q)
        (word : str) (n : nat) :
  (forall k,
      n <= k < n + match re_match U word with
                   | None => 0
                   | Some (base, _) =>
                       List.length (filter (draws_one U) (split_on HYPHEN base))
                   end ->
      d1 k = d2 k) ->
  smurfify_word U chaos d1 word n = smurfify_word U chaos d2 word n.
Proof.
  unfold smurfify_word. destruct (re_match U word) as [[base punct]|];
    [|reflexivity].
  intro H. unfold bind.
  now rewrite (mapM_smurfify_base_agree U chaos d1 d2 _ n H).
Qed.

Lemma smurfify_word_agree_witness :
  smurfify_word sample_unicode CHAOS_CHANCE (constant_draws (3 # 4)%Q)
    (lit "fixed-bug!") 0
  = smurfify_word sample_unicode CHAOS_CHANCE
      (fun k => if Nat.eqb k 0 then (3 # 4)%Q else 0%Q) (lit "fixed-bug!") 0.
Proof.
  apply (smurfify_word_agree sample_unicode CHAOS_CHANCE
           (constant_draws (3 # 4)%Q)
           (fun k => if Nat.eqb k 0 then (3 # 4)%Q else 0%Q)
           (lit "fixed-bug!") 0).
  intros k Hk. change (0 <= k < 0 + 1) in Hk.
  destruct k as [|k]; [reflexivity | lia].
Defined.

(** ** A second pass *)

Lemma smurf_forms_fixed (U : Unicode) (chaos : Q) (draws : nat -> Q)
      (s : str) (n : nat) :
  In s SMURF_FORMS ->
  smurfify_base U chaos draws s n = Returns s n
  \/ smurfify_base U chaos draws s n = Returns s (S n).
Proof.
  intro Hin. rewrite smurfify_base_by_category.
  repeat (destruct Hin as [<-|Hin];
          [cbv -[Qltb]; try (destruct (Qltb (draws n) chaos)); auto|]).
  destruct Hin.
Qed.

(** X4.  The substitute of a verb or a noun is stable: given again to
    [smurfify_base], whatever the chaos chance and the draws, it comes back
    unchanged. *)
Theorem smurf_substitute_stable (U : Unicode) (chaos : Q) (draws : nat -> Q)
        (original : str) (n : nat) :
  exists n' : nat,
    smurfify_base U chaos draws (apply_inflection U (lit "smurf") original) n
    = Returns (apply_inflection U (lit "smurf") original) n'.
Proof.
  destruct (smurf_forms_fixed U chaos draws _ n
              (apply_inflection_smurf_forms U original)) as [H|H]; eauto.
Qed.

(** ** What the collision test sees *)

Lemma startswith_nil (s : str) : startswith s [] = true.
Proof. destruct s; reflexivity. Qed.

Lemma substitutes_facts (U : Unicode) (s : str) :
  In s SUBSTITUTES ->
  s <> []
  /\ forallb (fun c => negb (isspace_cp U c)) s = true
  /\ forallb (fun c => negb (N.eqb c HYPHEN)) s = true
  /\ forall rest : str, is_smurfed U (s ++ rest) = true.
Proof.
  intro Hin. cbv in Hin.
  repeat (destruct Hin as [<-|Hin];
          [split; [discriminate|]; split; [reflexivity|];
           split; [reflexivity|]; intro rest;
           unfold is_smurfed, lower; simpl;
           first [reflexivity | apply startswith_nil]|]).
  destruct Hin.
Qed.

(** X5.  On a token without a hyphen, the collision test misses no change:
    what the word transformer returns is the token itself or starts with
    smurf. *)
Theorem change_is_smurfed (U : Unicode) (chaos : Q) (draws : nat -> Q)
        (token out : str) (n n' : nat) :
  forallb (fun c => negb (isspace_cp U c)) token = true ->
  forallb (fun c => negb (N.eqb c HYPHEN)) token = true ->
  smurfify_word U chaos draws token n = Returns out n' ->
  out = token \/ is_smurfed U out = true.
Proof.
  intros Hws Hhy Hout. unfold smurfify_word in Hout.
  destruct (re_match U token) as [[base punct]|] eqn:E.
  - destruct (re_match_Some U token base punct E) as [[Htok|Htok] _];
      [|elim (token_no_newline U token base punct Hws Htok)].
    subst token. rewrite forallb_app in Hhy.
    apply andb_true_iff in Hhy as [Hbase _].
    rewrite (split_on_absent _ _ Hbase) in Hout. simpl in Hout.
    unfold bind in Hout.
    destruct (smurfify_base U chaos draws base n) as [s n1|] eqn:Hs;
      [|discriminate].
    injection Hout as <- _.
    destruct (smurfify_base_result U chaos draws base s n n1 Hs) as [->|Hin];
      [now left|].
    right. now apply substitutes_facts.
  - injection Hout as <- _. now left.
Qed.

Lemma change_is_smurfed_witness :
  smurfify_word sample_unicode CHAOS_CHANCE (constant_draws 0%Q) (lit "Zebras,") 0
  = Returns (lit "Smurfs,") 1
  /\ (lit "Smurfs," = lit "Zebras,"
      \/ is_smurfed sample_unicode (lit "Smurfs,") = true).
Proof.
  split; [reflexivity|].
  exact (change_is_smurfed sample_unicode CHAOS_CHANCE (constant_draws 0%Q)
           (lit "Zebras,") (lit "Smurfs,") 0 1 eq_refl eq_refl eq_refl).
Defined.

(** ** The words put out are tokens *)

Lemma split_on_forallb (P : char -> bool) (sep : char) (s : str) :
  forallb P s = true -> Forall (fun p => forallb P p = true) (split_on sep s).
Proof.
  induction s as [|c tl IH]; intro H; simpl.
  - repeat constructor.
  - simpl in H. apply andb_true_iff in H as [Hc Htl]. specialize (IH Htl).
    destruct (N.eqb c sep); [constructor; [reflexivity | assumption]|].
    destruct (split_on sep tl) as [|p ps].
    + repeat constructor. simpl. now rewrite Hc.
    + inversion IH as [|x xs Hp Hps]; subst.
      constructor; [|assumption]. simpl. now rewrite Hc, Hp.
Qed.

Lemma join_forallb (P : char -> bool) (sep : str) (parts : list str) :
  forallb P sep = true ->
  Forall (fun p => forallb P p = true) parts ->
  forallb P (join sep parts) = true.
Proof.
  intros Hsep. induction 1 as [|p ps Hp Hps IH]; [reflexivity|].
  destruct ps as [|q qs]; [exact Hp|].
  rewrite join_cons by discriminate.
  now rewrite !forallb_app, Hp, Hsep, IH.
Qed.

Lemma mapM_smurfify_base_range (U : Unicode) (chaos : Q) (draws : nat -> Q)
      (parts outs : list str) (n n' : nat) :
  mapM (smurfify_base U chaos draws) parts n = Returns outs n' ->
  Forall2 (fun p o => o = p \/ In o SUBSTITUTES) parts outs.
Proof.
  revert outs n n'. induction parts as [|p ps IH]; intros outs n n' H.
  - injection H as <- _. constructor.
  - simpl in H. unfold bind in H.
    destruct (smurfify_base U chaos draws p n) as [s n1|] eqn:Hp; [|discriminate].
    destruct (mapM (smurfify_base U chaos draws) ps n1) as [ss n2|] eqn:Hps;
      [|discriminate].
    injection H as <- _. constructor; [|now apply (IH ss n1 n2)].
    now apply (smurfify_base_result U chaos draws p s n n1).
Qed.

Lemma join_nil (sep : char) (parts : list str) :
  join [sep] parts = [] -> parts = [] \/ parts = [[]].
Proof.
  destruct parts as [|p [|q qs]]; simpl; auto.
  - intros ->. now right.
  - intro H. apply app_eq_nil in H as [_ H]. discriminate H.
Qed.

(** The transform of a token is a token. *)
Lemma smurfify_word_token (U : Unicode) (chaos : Q) (draws : nat -> Q)
      (token out : str) (n n' : nat) :
  is_token U token ->
  smurfify_word U chaos draws token n = Returns out n' ->
  is_token U out.
Proof.
  intros [Hne Hws] Hout. unfold smurfify_word in Hout.
  destruct (re_match U token) as [[base punct]|] eqn:E;
    [|injection Hout as <- _; now split].
  destruct (re_match_Some U token base punct E) as [[Htok|Htok] [Hbase _]];
    [|elim (token_no_newline U token base punct Hws Htok)].
  subst token. rewrite forallb_app in Hws.
  apply andb_true_iff in Hws as [Hwsb Hwsp].
  unfold bind in Hout.
  destruct (mapM (smurfify_base U chaos draws) (split_on HYPHEN base) n)
    as [outs n1|] eqn:Hm; [|discriminate].
  injection Hout as <- _.
  pose proof (mapM_smurfify_base_range U chaos draws _ _ _ _ Hm) as Hrange.
  pose proof (split_on_forallb _ HYPHEN base Hwsb) as Hparts.
  assert (Houts : Forall (fun o => forallb (fun c => negb (isspace_cp U c)) o = true)
                         outs).
  { clear Hm. revert Hparts.
    induction Hrange as [|p o ps os Hpo _ IH]; intro Hparts; constructor.
    - inversion Hparts; subst. destruct Hpo as [->|Hin]; [assumption|].
      now apply substitutes_facts.
    - apply IH. now inversion Hparts. }
  split.
  - intro Hnil. apply app_eq_nil in Hnil as [Hjoin _].
    apply join_nil in Hjoin as [->| ->].
    + inversion Hrange as [Hsplit|]. symmetry in Hsplit.
      now apply split_on_nonempty in Hsplit.
    + inversion Hrange as [|p o ps os Hpo Hrest Hsplit]; subst.
      inversion Hrest; subst.
      pose proof (join_split_on HYPHEN base) as Hjs.
      rewrite <- Hsplit in Hjs. simpl in Hjs. subst p.
      destruct Hpo as [Heq|Hin]; [now apply Hbase|].
      apply (substitutes_facts U) in Hin as [Hin _]. now apply Hin.
  - rewrite forallb_app, Hwsp, andb_true_r.
    apply join_forallb; [reflexivity | assumption].
Qed.

(** ** A relation between the tokens and the words put out *)

Section LoopRelation.

Variable U : Unicode.
Variable chaos : Q.
Variable draws : nat -> Q.

(** A relation that holds between a token and its transform, between a token
    that reads some and the word some, and between a token and itself. *)
Variable R : str -> str -> Prop.

Hypothesis R_word :
  forall (w out : str) (n n' : nat),
    is_token U w -> smurfify_word U chaos draws w n = Returns out n' -> R w out.
Hypothesis R_some :
  forall c : str,
    is_token U c -> str_eqb (lower U c) (lit "some") = true -> R c (lit "some").
Hypothesis R_same : forall w : str, is_token U w -> R w w.

Lemma while_loop_related (fuel : nat) :
  forall (pre rest result : list str) (n : nat),
    List.length rest <= fuel ->
    Forall (is_token U) (pre ++ rest) ->
    Forall2 R pre result ->
    exists (result' : list str) (n' : nat),
      while_loop U chaos draws fuel (pre ++ rest) (List.length pre) result n
      = Returns (List.length (pre ++ rest), result') n'
      /\ Forall2 R (pre ++ rest) result'.
Proof.
  induction fuel as [fuel IH] using lt_wf_ind.
  intros pre rest result n Hfuel Htok Hrel.
  destruct rest as [|w rest].
  - exists result, n. rewrite app_nil_r. split; [|assumption].
    destruct fuel; simpl; rewrite Nat.ltb_irrefl; reflexivity.
  - destruct fuel as [|fuel]; [simpl in Hfuel; lia|].
    assert (Hlt : (List.length pre <? List.length (pre ++ w :: rest)) = true).
    { apply Nat.ltb_lt. rewrite length_app. simpl. lia. }
    assert (Hw : is_token U w).
    { rewrite Forall_forall in Htok. apply Htok. apply in_or_app. right. now left. }
    assert (Hone : forall (s : str) (m : nat),
               R w s ->
               exists (result' : list str) (n' : nat),
                 while_loop U chaos draws fuel (pre ++ w :: rest)
                   (List.length pre + 1) (result ++ [s]) m
                 = Returns (List.length (pre ++ w :: rest), result') n'
                 /\ Forall2 R (pre ++ w :: rest) result').
    { intros s m Hs.
      replace (pre ++ w :: rest) with ((pre ++ [w]) ++ rest) in *
        by (now rewrite <- app_assoc).
      replace (List.length pre + 1) with (List.length (pre ++ [w]))
        by (rewrite length_app; reflexivity).
      apply IH; [lia | simpl in Hfuel; lia | assumption |].
      apply Forall2_app; [assumption | constructor; [assumption|constructor]]. }
    simpl while_loop. rewrite Hlt. unfold bind at 1.
    destruct rest as [|c [|w2 post]];
      try (rewrite loop_body_short by (simpl; lia);
           unfold bind, ret;
           destruct (smurfify_word_returns U chaos draws w n) as [s [m Hs]];
           rewrite Hs; cbn [fst snd]; apply Hone;
           now apply (R_word w s n m)).
    assert (Hc : is_token U c).
    { rewrite Forall_forall in Htok. apply Htok. apply in_or_app. right.
      right. now left. }
    assert (Hw2 : is_token U w2).
    { rewrite Forall_forall in Htok. apply Htok. apply in_or_app. right.
      right. right. now left. }
    assert (Hthree : forall (a b d : str) (m : nat),
               R w a -> R c b -> R w2 d ->
               exists (result' : list str) (n' : nat),
                 while_loop U chaos draws fuel (pre ++ w :: c :: w2 :: post)
                   (List.length pre + 3) (result ++ [a; b; d]) m
                 = Returns (List.length (pre ++ w :: c :: w2 :: post), result') n'
                 /\ Forall2 R (pre ++ w :: c :: w2 :: post) result').
    { intros a b d m Ha Hb Hd.
      replace (pre ++ w :: c :: w2 :: post) with ((pre ++ [w; c; w2]) ++ post) in *
        by (now rewrite <- app_assoc).
      replace (List.length pre + 3) with (List.length (pre ++ [w; c; w2]))
        by (rewrite length_app; reflexivity).
      apply IH; [lia | simpl in Hfuel; lia | assumption |].
      apply Forall2_app; [assumption | repeat constructor; assumption]. }
    rewrite loop_body_window. unfold on_window.
    destruct (str_eqb (lower U c) (lit "some")
              && mem (re_sub U (lower U w)) VERBS
              && mem (re_sub U (lower U w2)) NOUNS) eqn:Hidiom.
    + apply andb_true_iff in Hidiom as [Hidiom _].
      apply andb_true_iff in Hidiom as [Hsome _].
      unfold bind, random, ret.
      destruct (Qltb (draws n) (1 # 2)%Q).
      * destruct (smurfify_word_returns U chaos draws w (S n)) as [s [m Hs]].
        rewrite Hs. cbn [fst snd]. apply Hthree; auto.
        now apply (R_word w s (S n) m).
      * destruct (smurfify_word_returns U chaos draws w2 (S n)) as [s [m Hs]].
        rewrite Hs. cbn [fst snd]. apply Hthree; auto.
        now apply (R_word w2 s (S n) m).
    + destruct (smurfify_word_returns U chaos draws w n) as [s1 [n1 Hs1]].
      destruct (smurfify_word_returns U chaos draws w2 n1) as [s2 [n2 Hs2]].
      destruct (smurfify_word_returns U chaos draws w n2) as [s [n3 Hs3]].
      destruct (mem (lower U c) CONNECTORS).
      * unfold bind, random, ret. rewrite Hs1, Hs2.
        destruct (is_smurfed U s1 && is_smurfed U s2).
        -- destruct (Qltb (draws n2) (1 # 2)%Q); cbn [fst snd]; apply Hthree;
             auto.
           ++ now apply (R_word w s1 n n1).
           ++ now apply (R_word w2 s2 n1 n2).
        -- rewrite Hs3. cbn [fst snd]. apply Hone.
           now apply (R_word w s n2 n3).
      * unfold bind, ret. rewrite Hs1. cbn [fst snd]. apply Hone.
        now apply (R_word w s1 n n1).
Qed.

(** The same for a whole line. *)
Lemma smurfify_line_related (line : str) (n : nat) :
  exists (result : list str) (n' : nat),
    smurfify_line U chaos draws line n = Returns (join (lit " ") result) n'
    /\ Forall2 R (split U line) result.
Proof.
  destruct (while_loop_related (List.length (split U line))
              [] (split U line) [] n) as [result [n' [Hloop Hrel]]].
  - apply Nat.le_refl.
  - apply Forall_forall. intros t Ht. now apply (split_tokens U line t).
  - constructor.
  - simpl in Hloop, Hrel. exists result, n'. split; [|assumption].
    unfold smurfify_line, bind, ret. now rewrite Hloop.
Qed.

End LoopRelation.

(** ** Splitting what was joined *)

Lemma split_go_word (U : Unicode) (w tok rest : str) :
  forallb (fun c => negb (isspace_cp U c)) w = true ->
  split_go U tok (w ++ rest) = split_go U (tok ++ w) rest.
Proof.
  revert tok. induction w as [|c w IH]; intros tok H; simpl.
  - now rewrite app_nil_r.
  - simpl in H. apply andb_true_iff in H as [Hc Hw].
    apply negb_true_iff in Hc. rewrite Hc, (IH _ Hw), <- app_assoc. reflexivity.
Qed.

Lemma split_go_space (U : Unicode) (tok s : str) :
  tok <> [] -> split_go U tok (32%N :: s) = tok :: split_go U [] s.
Proof. intro H. destruct tok; [congruence | reflexivity]. Qed.

(** [' '.join(words).split()] gives the words back when they are tokens. *)
Lemma split_join (U : Unicode) (words : list str) :
  Forall (is_token U) words -> split U (join (lit " ") words) = words.
Proof.
  unfold split. induction 1 as [|w ws [Hne Hws] Hrest IH]; [reflexivity|].
  destruct ws as [|w2 ws].
  - simpl. rewrite <- (app_nil_r w) at 1.
    rewrite (split_go_word U w [] [] Hws). simpl. destruct w; congruence.
  - rewrite join_cons by discriminate.
    rewrite (split_go_word U w [] _ Hws).
    change ([] ++ w) with w.
    change (lit " " ++ join (lit " ") (w2 :: ws))
      with (32%N :: join (lit " ") (w2 :: ws)).
    now rewrite (split_go_space U w _ Hne), IH.
Qed.

Lemma Forall2_right {A B : Type} (P : B -> Prop) (l : list A) (l' : list B) :
  Forall2 (fun _ b => P b) l l' -> Forall P l'.
Proof. induction 1; constructor; assumption. Qed.

Lemma some_is_token (U : Unicode) : is_token U (lit "some").
Proof. split; [discriminate | reflexivity]. Qed.

(** The words of the output line: one for each token, each a token. *)
Lemma smurfify_line_output (U : Unicode) (chaos : Q) (draws : nat -> Q)
      (line : str) (n : nat) :
  exists (result : list str) (n' : nat),
    smurfify_line U chaos draws line n = Returns (join (lit " ") result) n'
    /\ List.length result = List.length (split U line)
    /\ Forall (is_token U) result.
Proof.
  destruct (smurfify_line_related U chaos draws
              (fun _ out => is_token U out)
              (fun w out n n' Hw H => smurfify_word_token U chaos draws w out n n' Hw H)
              (fun c _ _ => some_is_token U)
              (fun w Hw => Hw)
              line n) as [result [n' [Hline Hrel]]].
  exists result, n'. split; [assumption|]. split.
  - symmetry. exact (Forall2_length Hrel).
  - exact (Forall2_right _ _ _ Hrel).
Qed.

Lemma join_tokens_no_newline (U : Unicode) (words : list str) :
  Forall (is_token U) words -> ~ In NEWLINE (join (lit " ") words).
Proof.
  intros Hwords Hin.
  assert (Hns : forallb (fun c => negb (N.eqb c NEWLINE)) (join (lit " ") words)
                = true).
  { apply join_forallb; [reflexivity|].
    apply Forall_forall. intros w Hw. rewrite Forall_forall in Hwords.
    destruct (Hwords w Hw) as [_ Hws].
    apply forallb_forall. intros c Hc. rewrite forallb_forall in Hws.
    specialize (Hws c Hc). apply negb_true_iff. apply N.eqb_neq. intros ->.
    discriminate Hws. }
  rewrite forallb_forall in Hns. specialize (Hns _ Hin). discriminate Hns.
Qed.

(** X6.  The output line is made of as many words as the input line has
    tokens; each is not empty and holds no whitespace, so splitting the output
    line gives these words back: a line keeps its number of tokens, and no
    newline enters it. *)
Theorem line_keeps_token_count (U : Unicode) (chaos : Q) (draws : nat -> Q)
        (line : str) (n : nat) :
  exists (out : str) (n' : nat),
    smurfify_line U chaos draws line n = Returns out n'
    /\ List.length (split U out) = List.length (split U line)
    /\ Forall (is_token U) (split U out)
    /\ join (lit " ") (split U out) = out
    /\ ~ In NEWLINE out.
Proof.
  destruct (smurfify_line_output U chaos draws line n)
    as [result [n' [Hline [Hlen Htok]]]].
  exists (join (lit " ") result), n'.
  rewrite (split_join U result Htok).
  repeat split; auto.
  now apply (join_tokens_no_newline U).
Qed.

(** X7.  Token by token, the word put out is the token itself, a transform of
    the token, or the word some for a token that reads some in lower case:
    the line transformer drops, adds, merges and reorders nothing. *)
Theorem line_word_for_word (U : Unicode) (chaos : Q) (draws : nat -> Q)
        (line : str) (n : nat) :
  exists (result : list str) (n' : nat),
    smurfify_line U chaos draws line n = Returns (join (lit " ") result) n'
    /\ Forall2 (emitted_for U chaos draws) (split U line) result.
Proof.
  apply smurfify_line_related.
  - intros w out m m' _ H. right. left. eauto.
  - intros c _ H. right. right. split; [now apply str_eqb_eq | reflexivity].
  - intros w _. now left.
Qed.

(** ** Lines without a window *)

Lemma on_window_plain (U : Unicode) (chaos : Q) (draws : nat -> Q)
      (i : nat) (result : list str) (w1 c w2 : str) :
  plain U c = true ->
  on_window U chaos draws i result w1 c w2
  = (s <- smurfify_word U chaos draws w1 ;; ret (i + 1, result ++ [s])).
Proof.
  unfold plain. intro H. apply andb_true_iff in H as [Hs Hc].
  apply negb_true_iff in Hs. apply negb_true_iff in Hc.
  unfold on_window. now rewrite Hs, Hc.
Qed.

Lemma while_loop_plain (U : Unicode) (chaos : Q) (draws : nat -> Q)
      (rest : list str) :
  forall (fuel : nat) (pre result : list str) (n : nat),
    List.length rest <= fuel ->
    Forall (fun t => plain U t = true) rest ->
    while_loop U chaos draws fuel (pre ++ rest) (List.length pre) result n
    = (outs <- mapM (smurfify_word U chaos draws) rest ;;
       ret (List.length (pre ++ rest), result ++ outs)) n.
Proof.
  induction rest as [|w rest IH]; intros fuel pre result n Hfuel Hplain.
  - rewrite !app_nil_r. unfold bind, ret. simpl. rewrite app_nil_r.
    destruct fuel; simpl; rewrite Nat.ltb_irrefl; reflexivity.
  - destruct fuel as [|fuel]; [simpl in Hfuel; lia|].
    assert (Hlt : (List.length pre <? List.length (pre ++ w :: rest)) = true).
    { apply Nat.ltb_lt. rewrite length_app. simpl. lia. }
    inversion Hplain as [|x xs Hw Hrest]; subst.
    assert (Hbody : loop_body U chaos draws (pre ++ w :: rest)
                      (List.length pre) result n
                    = (s <- smurfify_word U chaos draws w ;;
                       ret (List.length pre + 1, result ++ [s])) n).
    { destruct rest as [|c [|w2 post]];
        try (apply loop_body_short; simpl; lia).
      rewrite loop_body_window.
      inversion Hrest as [|y ys Hc _]; subst.
      now rewrite (on_window_plain U chaos draws _ result w c w2 Hc). }
    simpl while_loop. rewrite Hlt. unfold bind at 1. rewrite Hbody.
    simpl mapM. unfold bind, ret.
    destruct (smurfify_word U chaos draws w n) as [s m|]; [|reflexivity].
    cbn [fst snd].
    replace (pre ++ w :: rest) with ((pre ++ [w]) ++ rest)
      by (now rewrite <- app_assoc).
    replace (List.length pre + 1) with (List.length (pre ++ [w]))
      by (rewrite length_app; reflexivity).
    rewrite (IH fuel (pre ++ [w]) (result ++ [s]) m);
      [|simpl in Hfuel; lia | assumption].
    unfold bind, ret.
    destruct (mapM (smurfify_word U chaos draws) rest m) as [outs m'|];
      [|reflexivity].
    now rewrite <- (app_assoc result [s] outs).
Qed.

(** X8.  On a line none of whose tokens reads some, and or a comma in lower
    case, the line transformer is the word transformer applied to the tokens
    from left to right, the results joined by single spaces. *)
Theorem plain_line_word_by_word (U : Unicode) (chaos : Q) (draws : nat -> Q)
        (line : str) (n : nat) :
  Forall (fun t => plain U t = true) (split U line) ->
  smurfify_line U chaos draws line n
  = (outs <- mapM (smurfify_word U chaos draws) (split U line) ;;
     ret (join (lit " ") outs)) n.
Proof.
  intro Hplain.
  pose proof (while_loop_plain U chaos draws (split U line)
                (List.length (split U line)) [] [] n (Nat.le_refl _) Hplain)
    as Hloop.
  change ([] ++ split U line) with (split U line) in Hloop.
  change (List.length (@nil str)) with 0 in Hloop.
  unfold smurfify_line. unfold bind at 1. rewrite Hloop.
  unfold bind, ret.
  destruct (mapM (smurfify_word U chaos draws) (split U line) n); reflexivity.
Qed.

Lemma plain_line_word_by_word_witness :
  Forall (fun t => plain sample_unicode t = true)
         (split sample_unicode (lit "Fix the bugs, now!"))
  /\ smurfify_line sample_unicode CHAOS_CHANCE (constant_draws (3 # 4)%Q)
       (lit "Fix the bugs, now!") 0
     = (outs <- mapM (smurfify_word sample_unicode CHAOS_CHANCE
                        (constant_draws (3 # 4)%Q))
                     (split sample_unicode (lit "Fix the bugs, now!")) ;;
        ret (join (lit " ") outs)) 0.
Proof.
  assert (H : Forall (fun t => plain sample_unicode t = true)
                     (split sample_unicode (lit "Fix the bugs, now!")))
    by (repeat constructor).
  split; [exact H|].
  exact (plain_line_word_by_word sample_unicode CHAOS_CHANCE
           (constant_draws (3 # 4)%Q) (lit "Fix the bugs, now!") 0 H).
Defined.

(** ** The callers: lines of a stream *)

(** [rstrip] removes a run of whitespace at the end, and all of it. *)
Lemma rstrip_spec (U : Unicode) (s : str) :
  exists ws : str,
    s = rstrip U s ++ ws
    /\ forallb (isspace_cp U) ws = true
    /\ match rev (rstrip U s) with
       | [] => True
       | c :: _ => isspace_cp U c = false
       end.
Proof.
  induction s as [|c tl [ws [Heq [Hws Hlast]]]].
  - exists []. repeat split.
  - simpl. destruct (rstrip U tl) as [|r0 r] eqn:E.
    + destruct (isspace_cp U c) eqn:Hc.
      * exists (c :: ws). simpl in Heq. subst tl. repeat split.
        simpl. now rewrite Hc.
      * exists ws. simpl in Heq. subst tl. repeat split; try assumption.
    + exists ws. split; [now rewrite Heq at 1|]. split; [assumption|].
      change (rev (c :: r0 :: r)) with (rev (r0 :: r) ++ [c]).
      destruct (rev (r0 :: r)) as [|x xs] eqn:Er; [|exact Hlast].
      apply (f_equal (@rev char)) in Er. rewrite rev_involutive in Er.
      discriminate Er.
Qed.

Lemma split_go_trailing (U : Unicode) (s ws tok : str) :
  forallb (isspace_cp U) ws = true ->
  split_go U tok (s ++ ws) = split_go U tok s.
Proof.
  intro Hws. revert tok. induction s as [|c s IH]; intro tok.
  - simpl. revert tok. induction ws as [|x ws IHws]; intro tok; [reflexivity|].
    simpl in Hws. apply andb_true_iff in Hws as [Hx Hws]. simpl. rewrite Hx.
    destruct tok; rewrite (IHws Hws); reflexivity.
  - simpl. destruct (isspace_cp U c); [destruct tok|]; now rewrite IH.
Qed.

(** X9.  The [rstrip] that [main] applies to a line before it calls
    [smurfify_line] changes nothing: the line has the same tokens with and
    without the whitespace at its end (the newline of a line read from a
    file, for one), so the result is the same. *)
Theorem rstrip_redundant (U : Unicode) (chaos : Q) (draws : nat -> Q)
        (line : str) (n : nat) :
  split U (rstrip U line) = split U line
  /\ smurfify_line U chaos draws (rstrip U line) n
     = smurfify_line U chaos draws line n.
Proof.
  assert (H : split U (rstrip U line) = split U line).
  { destruct (rstrip_spec U line) as [ws [Heq [Hws _]]].
    unfold split. rewrite Heq at 2. now rewrite split_go_trailing. }
  split; [exact H|]. unfold smurfify_line. now rewrite H.
Qed.

Lemma smurfify_lines_output (U : Unicode) (chaos : Q) (draws : nat -> Q)
      (lines : list str) :
  forall n : nat,
  exists (outs : list str) (n' : nat),
    smurfify_lines U chaos draws lines n = Returns outs n'
    /\ Forall2 (fun line out =>
                  List.length (split U out) = List.length (split U line)
                  /\ ~ In NEWLINE out) lines outs.
Proof.
  unfold smurfify_lines. induction lines as [|line lines IH]; intro n.
  - exists [], n. split; [reflexivity | constructor].
  - destruct (smurfify_line_output U chaos draws (rstrip U line) n)
      as [result [n1 [Hline [Hlen Htok]]]].
    destruct (IH n1) as [outs [n2 [Hrest Hall]]].
    exists (join (lit " ") result :: outs), n2. split.
    + simpl. unfold bind. now rewrite Hline, Hrest.
    + constructor; [|assumption]. split.
      * rewrite (split_join U result Htok), Hlen.
        destruct (rstrip_spec U line) as [ws [Heq [Hws _]]].
        unfold split. rewrite Heq at 2. now rewrite split_go_trailing.
      * now apply (join_tokens_no_newline U).
Qed.

(** X10.  The loop of [main] over the lines of a file or of the standard
    input never raises in [smurfify_line]; it prints one line for each line
    read, with as many tokens as the line read and without a newline inside,
    so the output has the lines of the input, in order. *)
Theorem stream_line_for_line (U : Unicode) (chaos : Q) (draws : nat -> Q)
        (lines : list str) (n : nat) :
  exists (outs : list str) (n' : nat),
    smurfify_lines U chaos draws lines n = Returns outs n'
    /\ List.length outs = List.length lines
    /\ Forall2 (fun line out =>
                  List.length (split U out) = List.length (split U line)
                  /\ ~ In NEWLINE out) lines outs.
Proof.
  destruct (smurfify_lines_output U chaos draws lines n) as [outs [n' [H Hall]]].
  exists outs, n'. split; [assumption|]. split; [|assumption].
  symmetry. exact (Forall2_length Hall).
Qed.

(** ** The callers: the arguments of the command line *)

Lemma split_go_space_app (U : Unicode) (a b tok : str) :
  split_go U tok (a ++ 32%N :: b) = split_go U tok a ++ split_go U [] b.
Proof.
  revert tok. induction a as [|c a IH]; intro tok.
  - simpl. destruct tok; reflexivity.
  - simpl. destruct (isspace_cp U c); [destruct tok|]; rewrite IH; reflexivity.
Qed.

Lemma split_join_args (U : Unicode) (text : list str) :
  split U (join (lit " ") text) = flat_map (split U) text.
Proof.
  induction text as [|t text IH]; [reflexivity|].
  destruct text as [|t2 text].
  - simpl. now rewrite app_nil_r.
  - rewrite join_cons by discriminate.
    change (lit " " ++ join (lit " ") (t2 :: text))
      with (32%N :: join (lit " ") (t2 :: text)).
    unfold split in *. rewrite split_go_space_app, IH. reflexivity.
Qed.

(** X11.  The text given as arguments is cut into tokens argument by
    argument: whitespace inside an argument separates tokens like the space
    [main] puts between two arguments, so two command lines with the same
    tokens give the same result. *)
Theorem args_by_tokens (U : Unicode) (chaos : Q) (draws : nat -> Q)
        (text text' : list str) (n : nat) :
  flat_map (split U) text = flat_map (split U) text' ->
  split U (join (lit " ") text) = flat_map (split U) text
  /\ smurfify_args U chaos draws text n = smurfify_args U chaos draws text' n.
Proof.
  intro H. split; [apply split_join_args|].
  unfold smurfify_args, smurfify_line. now rewrite !split_join_args, H.
Qed.

Lemma args_by_tokens_witness :
  flat_map (split sample_unicode) [lit "fix some"; lit " bug"]
  = flat_map (split sample_unicode) [lit "fix"; lit "some"; lit "bug"]
  /\ smurfify_args sample_unicode CHAOS_CHANCE (constant_draws 0%Q)
       [lit "fix some"; lit " bug"] 0
     = smurfify_args sample_unicode CHAOS_CHANCE (constant_draws 0%Q)
         [lit "fix"; lit "some"; lit "bug"] 0.
Proof.
  split; [reflexivity|].
  exact (proj2 (args_by_tokens sample_unicode CHAOS_CHANCE (constant_draws 0%Q)
                  [lit "fix some"; lit " bug"] [lit "fix"; lit "some"; lit "bug"]
                  0 eq_refl)).
Defined.

(** ** The token pattern *)

(** X12.  The pattern of the word transformer cuts a string in one way only:
    it matches with the groups [base] and [punct] exactly when [base] is a
    non-empty run of word characters and hyphens, [punct] a run of the nine
    punctuation characters, and the string is [base] followed by [punct],
    with or without one newline after them. *)
Theorem token_pattern_unique (U : Unicode) (word base punct : str) :
  re_match U word = Some (base, punct)
  <-> (base <> []
       /\ forallb (is_word_or_hyphen U) base = true
       /\ forallb is_punct punct = true
       /\ (word = base ++ punct \/ word = base ++ punct ++ [NEWLINE])).
Proof.
  split.
  - intro H. apply re_match_Some in H as [Hw [Hne [Hb Hp]]]. auto.
  - intros [Hne [Hb [Hp Hw]]]. now apply re_match_complete.
Qed.

Lemma after_base_not_word (U : Unicode) (punct tail : str) :
  forallb is_punct punct = true ->
  tail = [] \/ tail = [NEWLINE] ->
  forallb (fun c => negb (is_word_or_hyphen U c)) (punct ++ tail) = true.
Proof.
  intros Hp Ht. rewrite forallb_app. apply andb_true_iff. split.
  - apply forallb_forall. intros c Hc. rewrite forallb_forall in Hp.
    now rewrite (punct_not_word U c (Hp c Hc)).
  - destruct Ht as [->| ->]; reflexivity.
Qed.

Lemma re_match_inner_punctuation (U : Unicode) (a b c : str) (p w : char) :
  is_punct p = true -> is_word_or_hyphen U w = true ->
  re_match U (a ++ p :: b ++ w :: c) = None.
Proof.
  intros Hp Hw.
  destruct (re_match U (a ++ p :: b ++ w :: c)) as [[base punct]|] eqn:E;
    [|reflexivity].
  exfalso. apply re_match_Some in E as [Hword [_ [Hbase Hpunct]]].
  assert (Hshape : exists tail, (tail = [] \/ tail = [NEWLINE])
                                /\ a ++ p :: b ++ w :: c = base ++ punct ++ tail).
  { destruct Hword as [H|H].
    - exists []. split; [now left | now rewrite app_nil_r].
    - exists [NEWLINE]. split; [now right | assumption]. }
  destruct Hshape as [tail [Htail Heq]].
  pose proof (after_base_not_word U punct tail Hpunct Htail) as Hafter.
  rewrite forallb_forall in Hafter.
  assert (Hin : In w (punct ++ tail)).
  { apply app_eq_app in Heq as [l [[Ha Hrest]|[Hb Hrest]]].
    - rewrite Hrest. apply in_or_app. right. right.
      apply in_or_app. right. now left.
    - destruct l as [|x l].
      + simpl in Hrest. rewrite <- Hrest. right.
        apply in_or_app. right. now left.
      + exfalso. injection Hrest as <- _. subst base.
        rewrite forallb_app in Hbase. apply andb_true_iff in Hbase as [_ Hbase].
        simpl in Hbase. apply andb_true_iff in Hbase as [Hbase _].
        rewrite (punct_not_word U p Hp) in Hbase. discriminate. }
  specialize (Hafter w Hin). rewrite Hw in Hafter. discriminate.
Qed.

(** X13.  A token in which a punctuation character comes before a word
    character or a hyphen (an apostrophe inside a word, a dot inside a file
    name) is returned unchanged by the word transformer, which makes no draw
    for it, even when it holds a listed word. *)
Theorem inner_punctuation_unchanged (U : Unicode) (chaos : Q) (draws : nat -> Q)
        (a b c : str) (p w : char) (n : nat) :
  is_punct p = true -> is_word_or_hyphen U w = true ->
  smurfify_word U chaos draws (a ++ p :: b ++ w :: c) n
  = Returns (a ++ p :: b ++ w :: c) n.
Proof.
  intros Hp Hw. apply smurfify_word_nomatch.
  now apply re_match_inner_punctuation.
Qed.

Lemma inner_punctuation_unchanged_witness :
  smurfify_word sample_unicode CHAOS_CHANCE (constant_draws 0%Q)
    (lit "bug" ++ 46%N :: lit "" ++ 102%N :: lit "ix") 0
  = Returns (lit "bug.fix") 0.
Proof.
  exact (inner_punctuation_unchanged sample_unicode CHAOS_CHANCE
           (constant_draws 0%Q) (lit "bug") (lit "") (lit "ix") 46%N 102%N 0
           eq_refl eq_refl).
Defined.

(** ** The idiom window on words without the shape *)

(** X14.  The test of the idiom window strips the characters that are no word
    characters, the word transformer does not: when the window holds and the
    word the draw picks does not have the shape of the pattern (fix in
    brackets, say), the three words are put out with no substitution at all,
    the middle one as some, and the loop moves three words on. *)
Theorem idiom_without_shape (U : Unicode) (chaos : Q) (draws : nat -> Q)
        (pre post : list str) (w1 c w2 : str) (result : list str) (n : nat) :
  str_eqb (lower U c) (lit "some") = true ->
  mem (re_sub U (lower U w1)) VERBS = true ->
  mem (re_sub U (lower U w2)) NOUNS = true ->
  re_match U (if Qltb (draws n) (1 # 2)%Q then w1 else w2) = None ->
  loop_body U chaos draws (pre ++ w1 :: c :: w2 :: post) (List.length pre) result n
  = Returns (List.length pre + 3, result ++ [w1; lit "some"; w2]) (S n).
Proof.
  intros Hsome Hverb Hnoun Hshape.
  rewrite loop_body_window. unfold on_window. rewrite Hsome, Hverb, Hnoun.
  unfold bind, random, ret. cbn [andb].
  destruct (Qltb (draws n) (1 # 2)%Q);
    now rewrite (smurfify_word_nomatch U chaos draws _ (S n) Hshape).
Qed.

Lemma idiom_without_shape_witness :
  loop_body sample_unicode CHAOS_CHANCE (constant_draws 0%Q)
    ([] ++ [lit "(fix)"; lit "SOME"; lit "bug"]) 0 [] 0
  = Returns (0 + 3, [] ++ [lit "(fix)"; lit "some"; lit "bug"]) 1.
Proof.
  exact (idiom_without_shape sample_unicode CHAOS_CHANCE (constant_draws 0%Q)
           [] [] (lit "(fix)") (lit "SOME") (lit "bug") [] 0
           eq_refl eq_refl eq_refl eq_refl).
Defined.

(** ** Lines of whitespace *)

(** X15.  A line made of whitespace only gives the empty line, and no draw is
    made: the whitespace of the input is not kept. *)
Theorem whitespace_line_empty (U : Unicode) (chaos : Q) (draws : nat -> Q)
        (line : str) (n : nat) :
  forallb (isspace_cp U) line = true ->
  smurfify_line U chaos draws line n = Returns [] n.
Proof.
  intro Hws.
  assert (H : split U line = []).
  { unfold split. rewrite <- (app_nil_l line).
    now rewrite (split_go_trailing U [] line [] Hws). }
  unfold smurfify_line. rewrite H. reflexivity.
Qed.

Lemma whitespace_line_empty_witness :
  smurfify_line sample_unicode CHAOS_CHANCE (constant_draws 0%Q)
    [32; 9; 160; 10]%N 3
  = Returns [] 3.
Proof.
  exact (whitespace_line_empty sample_unicode CHAOS_CHANCE (constant_draws 0%Q)
           [32; 9; 160; 10]%N 3 eq_refl).
Defined.

(** ** Hyphens *)

Lemma split_on_pieces (sep : char) (s : str) :
  Forall (fun p => forallb (fun c => negb (N.eqb c sep)) p = true)
         (split_on sep s).
Proof.
  induction s as [|c tl IH]; simpl.
  - repeat constructor.
  - destruct (N.eqb c sep) eqn:E; [constructor; [reflexivity | assumption]|].
    destruct (split_on sep tl) as [|p ps]; [repeat constructor; simpl; now rewrite E|].
    inversion IH as [|x xs Hp Hps]; subst.
    constructor; [|assumption]. simpl. now rewrite E, Hp.
Qed.

Lemma split_on_app_sep (sep : char) (p rest : str) :
  forallb (fun c => negb (N.eqb c sep)) p = true ->
  split_on sep (p ++ sep :: rest) = p :: split_on sep rest.
Proof.
  induction p as [|c p IH]; intro H; simpl.
  - now rewrite N.eqb_refl.
  - simpl in H. apply andb_true_iff in H as [Hc Hp].
    apply negb_true_iff in Hc. now rewrite Hc, (IH Hp).
Qed.

(** [s.split('-')] after ['-'.join(parts)] gives the parts back when none of
    them holds a hyphen. *)
Lemma split_on_join (sep : char) (parts : list str) :
  parts <> [] ->
  Forall (fun p => forallb (fun c => negb (N.eqb c sep)) p = true) parts ->
  split_on sep (join [sep] parts) = parts.
Proof.
  intros Hne Hall. revert Hne.
  induction Hall as [|p ps Hp Hps IH]; intro Hne; [now elim Hne|].
  destruct ps as [|q qs].
  - simpl. now apply split_on_absent.
  - rewrite join_cons by discriminate.
    change ([sep] ++ join [sep] (q :: qs)) with (sep :: join [sep] (q :: qs)).
    rewrite (split_on_app_sep sep p _ Hp), IH; [reflexivity | discriminate].
Qed.

(** X16.  The word transformer keeps the hyphens of a token: its result is
    made of as many hyphen-separated parts as the base of the token, each the
    part of the token at that place or a substitute, followed by the
    punctuation of the token. *)
Theorem hyphens_kept (U : Unicode) (chaos : Q) (draws : nat -> Q)
        (token base punct out : str) (n n' : nat) :
  re_match U token = Some (base, punct) ->
  smurfify_word U chaos draws token n = Returns out n' ->
  exists parts : list str,
    out = join [HYPHEN] parts ++ punct
    /\ split_on HYPHEN (join [HYPHEN] parts) = parts
    /\ Forall2 (fun part o => o = part \/ In o SUBSTITUTES)
               (split_on HYPHEN base) parts.
Proof.
  intros Hm Hout.
  destruct (smurfify_word_match U chaos draws token base punct n Hm)
    as [parts [n1 [Hparts Hword]]].
  rewrite Hword in Hout. injection Hout as <- _.
  pose proof (mapM_smurfify_base_range U chaos draws _ _ _ _ Hparts) as Hrange.
  exists parts. split; [reflexivity|]. split; [|assumption].
  apply split_on_join.
  - intros ->. inversion Hrange as [Hsplit|]. symmetry in Hsplit.
    now apply split_on_nonempty in Hsplit.
  - pose proof (split_on_pieces HYPHEN base) as Hpieces. revert Hpieces.
    clear Hparts Hword.
    induction Hrange as [|p o ps os Hpo _ IH]; intro Hpieces; constructor.
    + inversion Hpieces; subst. destruct Hpo as [->|Hin]; [assumption|].
      now apply (substitutes_facts U).
    + apply IH. now inversion Hpieces.
Qed.

Lemma hyphens_kept_witness :
  exists parts : list str,
    lit "smurf--Smurfs-x1!?" = join [HYPHEN] parts ++ lit "!?"
    /\ split_on HYPHEN (join [HYPHEN] parts) = parts
    /\ Forall2 (fun part o => o = part \/ In o SUBSTITUTES)
               (split_on HYPHEN (lit "fix--Zebras-x1")) parts.
Proof.
  exact (hyphens_kept sample_unicode CHAOS_CHANCE (constant_draws 0%Q)
           (lit "fix--Zebras-x1!?") (lit "fix--Zebras-x1") (lit "!?")
           (lit "smurf--Smurfs-x1!?") 0 1 eq_refl eq_refl).
Defined.
